(** * Sliding-window rate limiter of the request-gating layer

    Shallow embedding of [src/auth/rate-limiter.ts] (class [RateLimiter],
    [createRateLimitMiddleware], [createSharedRateLimiter],
    [RATE_LIMIT_PRESETS], [createRateLimitFromPreset], [requireRateLimit])
    and the properties the specification states about it.

    Conventions of the embedding:
    - instants and durations are JavaScript numbers holding integral
      milliseconds ([Date.now()]); they are modelled as [Z].  The configured
      [limit] and [windowMs] are taken to be integral as well;
    - every call of [Date.now()] is an explicit argument (a clock reading), so
      a method that reads the clock twice takes two readings;
    - the [Map<string, RateLimitRecord>] is a [gmap string RateLimitRecord];
      a record object is shared between the map and the local variable that
      holds it, so an in-place update of the record is an update of the map;
    - a runtime exception is the [Throw] case of [result]. *)

From stdpp Require Import gmap strings list fin_maps numbers.
From Stdlib Require Import ZArith Lia Sorted.

Local Open Scope Z_scope.

(** ** Results of fallible calls *)

Inductive error :=
  | TypeError
  | RateLimitError (retryAfter : Z).

Inductive result (A : Type) :=
  | Ok (a : A)
  | Throw (e : error).
Arguments Ok {A} a.
Arguments Throw {A} e.

Global Instance result_ret : MRet result := fun A a => Ok a.

Global Instance result_bind : MBind result := fun A B k m =>
  match m with
  | Ok a => k a
  | Throw e => Throw e
  end.

Global Instance result_fmap : FMap result := fun A B f m =>
  match m with
  | Ok a => Ok (f a)
  | Throw e => Throw e
  end.

(** ** Data model *)

(** [interface RateLimitRecord]: request timestamps of the current window, in
    the order they were pushed, and the instant of the last access. *)
Record RateLimitRecord := mkRecord {
  timestamps : list Z;
  lastAccess : Z
}.

(** [RateLimitInfo] (from [./types]): [resetAt] is a [Date]; it is kept as its
    [getTime()] value in milliseconds. *)
Record RateLimitInfo := mkInfo {
  limit : Z;
  remaining : Z;
  resetAt : Z;
  isLimited : bool
}.

Global Instance RateLimitRecord_eq_dec : EqDecision RateLimitRecord.
Proof. solve_decision. Defined.

Global Instance RateLimitInfo_eq_dec : EqDecision RateLimitInfo.
Proof. solve_decision. Defined.

(** JavaScript truthiness of a number that is not [NaN]: only [0] is falsy. *)
Definition truthy (n : Z) : bool := negb (n =? 0).

(** [Math.ceil(ms / 1000)] on an integral [ms]. *)
Definition ceil_div_1000 (ms : Z) : Z := - ((- ms) / 1000).

(** An HTTP request as far as this layer reads it ([req.ip],
    [req.socket.remoteAddress], [req.path], [req.method], [req.get]). *)
Record Request := mkRequest {
  ip : option string;
  remoteAddress : option string;
  path : string;
  method : string;
  req_headers : gmap string string
}.

(** [a || b] on an optional string: [undefined] and the empty string are
    falsy. *)
Definition or_else (a : option string) (b : string) : string :=
  match a with
  | Some s => if decide (s = "") then b else s
  | None => b
  end.

(** A function supplied by the host, which this layer only calls. *)
Inductive callback := Callback (name : string).

(** [AuditEntry] (from [./types]) as [createRateLimitMiddleware] fills it. *)
Module AuditEntry.
Record Metadata := mkMetadata {
  meta_method : string;
  meta_limit : Z;
  meta_retryAfter : Z
}.
Record t := mk {
  id : string;
  timestamp : Z;
  action : string;
  actor : string;
  resource : string;
  success : bool;
  metadata : Metadata;
  ipAddress : option string
}.
End AuditEntry.

(** The body of the default rejection. *)
Record RejectionBody := mkBody {
  body_error : string;
  body_message : string;
  body_retryAfter : Z
}.

(** What a call of the middleware does to the outside, in order. *)
Inductive effect :=
  | SetHeader (name : string) (value : Z)
  | Status (code : Z)
  | Json (body : RejectionBody)
  | Next
  | AuditLog (sink : callback) (entry : AuditEntry.t)
  | OnLimitReached (handler : callback) (req : Request) (info : RateLimitInfo).

(** The response object of the fixture [createMockResponse]. *)
Record Response := mkResponse {
  statusCode : Z;
  headers : gmap string Z;
  body : option RejectionBody
}.

Definition createMockResponse : Response := mkResponse 200 ∅ None.

(** The writes of the middleware on a response; the calls that go to the
    host ([next], the audit sink, a custom handler) are not writes of this
    layer. *)
Definition write (res : Response) (e : effect) : Response :=
  match e with
  | SetHeader name value =>
      mkResponse (statusCode res) (<[name := value]> (headers res)) (body res)
  | Status code => mkResponse code (headers res) (body res)
  | Json b => mkResponse (statusCode res) (headers res) (Some b)
  | Next | AuditLog _ _ | OnLimitReached _ _ _ => res
  end.

Definition respond (effects : list effect) (res : Response) : Response :=
  foldl write res effects.

(** ** Configuration *)

(** [interface RateLimitConfig]: every field is optional.  A field that is
    present holds a value of its type. *)
Module RateLimitConfig.
Record t := mk {
  limit : option Z;
  windowMs : option Z;
  keyGenerator : option (Request -> string);
  skip : option (Request -> bool);
  onLimitReached : option callback;
  auditLog : option callback;
  headers : option bool;
  message : option string
}.

(** The default argument [{}]. *)
Definition empty : t := mk None None None None None None None None.

(** [a ?? b] on one field of a spread: the later object wins where it has
    the field. *)
Definition later {A : Type} (a b : option A) : option A :=
  match b with
  | Some _ => b
  | None => a
  end.

(** The object spread [{...a, ...b}]. *)
Definition spread (a b : t) : t :=
  mk (later (limit a) (limit b))
     (later (windowMs a) (windowMs b))
     (later (keyGenerator a) (keyGenerator b))
     (later (skip a) (skip b))
     (later (onLimitReached a) (onLimitReached b))
     (later (auditLog a) (auditLog b))
     (later (headers a) (headers b))
     (later (message a) (message b)).
End RateLimitConfig.

(** The type of [this.config] and of [mergedConfig]: five fields required,
    three still optional. *)
Module MergedConfig.
Record t := mk {
  limit : Z;
  windowMs : Z;
  keyGenerator : Request -> string;
  headers : bool;
  message : string;
  skip : option (Request -> bool);
  onLimitReached : option callback;
  auditLog : option callback
}.
End MergedConfig.

(** [DEFAULT_RATE_LIMIT_CONFIG]. *)
Definition DEFAULT_RATE_LIMIT_CONFIG : MergedConfig.t :=
  MergedConfig.mk
    60
    (60 * 1000)
    (fun req => or_else (ip req) (or_else (remoteAddress req) "unknown"))
    true
    "Too many requests, please try again later."
    None None None.

(** [{...DEFAULT_RATE_LIMIT_CONFIG, ...config}]. *)
Definition merge (config : RateLimitConfig.t) : MergedConfig.t :=
  let d := DEFAULT_RATE_LIMIT_CONFIG in
  MergedConfig.mk
    (default (MergedConfig.limit d) (RateLimitConfig.limit config))
    (default (MergedConfig.windowMs d) (RateLimitConfig.windowMs config))
    (default (MergedConfig.keyGenerator d) (RateLimitConfig.keyGenerator config))
    (default (MergedConfig.headers d) (RateLimitConfig.headers config))
    (default (MergedConfig.message d) (RateLimitConfig.message config))
    (RateLimitConfig.skip config)
    (RateLimitConfig.onLimitReached config)
    (RateLimitConfig.auditLog config).

(** ** class RateLimiter *)

Module RateLimiter.

(** The timer handle returned by [setInterval], as far as the code
    determines it. *)
Record Interval := mkInterval {
  delayMs : Z;
  unrefd : bool
}.

(** The fields of an instance. *)
Record t := mkLimiter {
  config : MergedConfig.t;
  store : gmap string RateLimitRecord;
  cleanupInterval : option Interval
}.

(** [startCleanup]: the sweep is scheduled every minute, and the timer is
    unreferenced. *)
Definition startCleanup (l : t) : t :=
  mkLimiter (config l) (store l) (Some (mkInterval (60 * 1000) true)).

(** [constructor]: the merged configuration, an empty store, then
    [startCleanup]. *)
Definition new (cfg : RateLimitConfig.t) : t :=
  startCleanup (mkLimiter (merge cfg) ∅ None).

(** [stop]. *)
Definition stop (l : t) : t := mkLimiter (config l) (store l) None.

Section Methods.
Variable cfg : MergedConfig.t.

(** One turn of the loop of [cleanup]. *)
Definition cleanup_step (now : Z) (s : gmap string RateLimitRecord)
    (entry : string * RateLimitRecord) : gmap string RateLimitRecord :=
  let expireTime := MergedConfig.windowMs cfg * 2 in
  if decide (now - lastAccess (snd entry) > expireTime)
  then delete (fst entry) s
  else s.

(** [cleanup]: a loop over the entries of the store. *)
Definition cleanup (now : Z) (s : gmap string RateLimitRecord)
    : gmap string RateLimitRecord :=
  foldl (cleanup_step now) s (map_to_list s).

(** The record [check] leaves under [key]: the one found (or a new, empty
    one), its timestamps filtered, its last access set. *)
Definition checked_record (now : Z) (key : string)
    (s : gmap string RateLimitRecord) : RateLimitRecord :=
  let windowStart := now - MergedConfig.windowMs cfg in
  let record := default (mkRecord [] now) (s !! key) in
  mkRecord (filter (fun ts => ts > windowStart) (timestamps record)) now.

(** The view [check] computes from the filtered record. *)
Definition info_of (now : Z) (record : RateLimitRecord) : RateLimitInfo :=
  let remaining :=
    Z.max 0 (MergedConfig.limit cfg
             - Z.of_nat (length (timestamps record))) in
  let isLimited := bool_decide (remaining = 0) in
  let resetAt :=
    match head (timestamps record) with
    | Some oldestTimestamp =>
        if truthy oldestTimestamp
        then oldestTimestamp + MergedConfig.windowMs cfg
        else now + MergedConfig.windowMs cfg
    | None => now + MergedConfig.windowMs cfg
    end in
  mkInfo (MergedConfig.limit cfg) remaining resetAt isLimited.

(** [check(key)], with [now] the reading of the clock it takes. *)
Definition check (now : Z) (key : string) (s : gmap string RateLimitRecord)
    : RateLimitInfo * gmap string RateLimitRecord :=
  let record := checked_record now key s in
  (info_of now record, <[key := record]> s).

(** [hit(key)]: [now] is the reading [hit] takes itself, [nowc] the one
    the nested [check] takes.  [this.store.get(key)!] is a lookup whose
    failure would make the property access throw. *)
Definition hit (now nowc : Z) (key : string)
    (s : gmap string RateLimitRecord)
    : result (RateLimitInfo * gmap string RateLimitRecord) :=
  let '(info, s1) := check nowc key s in
  if isLimited info then Ok (info, s1)
  else
    match s1 !! key with
    | Some record =>
        Ok (mkInfo (limit info) (Z.max 0 (remaining info - 1))
                   (resetAt info) (isLimited info),
            <[key := mkRecord (timestamps record ++ [now])
                              (lastAccess record)]> s1)
    | None => Throw TypeError
    end.

(** [reset(key)] and [resetAll()]. *)
Definition reset (key : string) (s : gmap string RateLimitRecord)
    : gmap string RateLimitRecord := delete key s.

Definition resetAll (s : gmap string RateLimitRecord)
    : gmap string RateLimitRecord := ∅.

(** [get size()]. *)
Definition size (s : gmap string RateLimitRecord) : nat :=
  base.size s.

(** [getInfo(key)]. *)
Definition getInfo (now : Z) (key : string)
    (s : gmap string RateLimitRecord)
    : RateLimitInfo * gmap string RateLimitRecord :=
  check now key s.

End Methods.

End RateLimiter.

(** ** Sequences of calls on one limiter *)

(** A call of a method of the limiter, with the clock readings it takes. *)
Inductive op :=
  | OpCheck (key : string) (now : Z)
  | OpGetInfo (key : string) (now : Z)
  | OpHit (key : string) (now nowc : Z)
  | OpReset (key : string)
  | OpResetAll
  | OpCleanup (now : Z).

Definition step (cfg : MergedConfig.t) (o : op)
    (s : gmap string RateLimitRecord)
    : result (option RateLimitInfo * gmap string RateLimitRecord) :=
  match o with
  | OpCheck key now =>
      let '(info, s') := RateLimiter.check cfg now key s in Ok (Some info, s')
  | OpGetInfo key now =>
      let '(info, s') := RateLimiter.getInfo cfg now key s in Ok (Some info, s')
  | OpHit key now nowc =>
      '(info, s') ← RateLimiter.hit cfg now nowc key s; Ok (Some info, s')
  | OpReset key => Ok (None, RateLimiter.reset key s)
  | OpResetAll => Ok (None, RateLimiter.resetAll s)
  | OpCleanup now => Ok (None, RateLimiter.cleanup cfg now s)
  end.

(** The values returned by a sequence of calls, and the store it leaves. *)
Fixpoint run (cfg : MergedConfig.t) (ops : list op)
    (s : gmap string RateLimitRecord)
    : result (list (option RateLimitInfo) * gmap string RateLimitRecord) :=
  match ops with
  | [] => Ok ([], s)
  | o :: ops' =>
      '(out, s1) ← step cfg o s;
      '(outs, s2) ← run cfg ops' s1;
      Ok (out :: outs, s2)
  end.

(** A burst of hits on one key, each with its two readings of the clock. *)
Definition hits (key : string) (burst : list (Z * Z)) : list op :=
  map (fun p => OpHit key (fst p) (snd p)) burst.

(** The key a call names, if it names one. *)
Definition op_key (o : op) : option string :=
  match o with
  | OpCheck key _ | OpGetInfo key _ | OpHit key _ _ | OpReset key => Some key
  | OpResetAll | OpCleanup _ => None
  end.

(** The readings of the clock that decide which timestamps a call keeps. *)
Definition op_readings (o : op) : list Z :=
  match o with
  | OpCheck _ now | OpGetInfo _ now | OpCleanup now => [now]
  | OpHit _ now nowc => [now; nowc]
  | OpReset _ | OpResetAll => []
  end.

(** ** Middleware *)

(** What one call of the middleware reads from its environment: the clock in
    [hit], in [check], when the retry delay is computed and when the audit
    entry is stamped, and the identifier drawn for the audit entry. *)
Record Env := mkEnv {
  hitNow : Z;
  checkNow : Z;
  retryNow : Z;
  auditNow : Z;
  uuid : string
}.

Definition rateLimitHeaders (info : RateLimitInfo) : list effect :=
  [ SetHeader "X-RateLimit-Limit" (limit info);
    SetHeader "X-RateLimit-Remaining" (remaining info);
    SetHeader "X-RateLimit-Reset" (ceil_div_1000 (resetAt info)) ].

Definition retryAfterOf (env : Env) (info : RateLimitInfo) : Z :=
  ceil_div_1000 (resetAt info - retryNow env).

Definition auditEntryOf (env : Env) (req : Request) (key : string)
    (info : RateLimitInfo) : AuditEntry.t :=
  AuditEntry.mk (uuid env) (auditNow env) "rate_limit.exceeded" key (path req)
    false
    (AuditEntry.mkMetadata (method req) (limit info) (retryAfterOf env info))
    (ip req).

(** [config.skip?.(req)]: falsy when no predicate is configured. *)
Definition skips (config : RateLimitConfig.t) (req : Request) : bool :=
  default false ((fun skip => skip req) <$> RateLimitConfig.skip config).

(** The function [createRateLimitMiddleware] returns, applied to one request:
    the effects in the order the code performs them and the store of its
    limiter afterwards. *)
Definition middleware (config : RateLimitConfig.t) (env : Env) (req : Request)
    (s : gmap string RateLimitRecord)
    : result (list effect * gmap string RateLimitRecord) :=
  let mergedConfig := merge config in
  if skips config req
  then Ok ([Next], s)
  else
    let key := MergedConfig.keyGenerator mergedConfig req in
    '(info, s') ← RateLimiter.hit mergedConfig (hitNow env) (checkNow env) key s;
    let hs := if MergedConfig.headers mergedConfig
              then rateLimitHeaders info else [] in
    if isLimited info then
      let retryAfter := retryAfterOf env info in
      let audit :=
        match RateLimitConfig.auditLog config with
        | Some sink => [AuditLog sink (auditEntryOf env req key info)]
        | None => []
        end in
      match RateLimitConfig.onLimitReached config with
      | Some handler =>
          Ok (hs ++ [SetHeader "Retry-After" retryAfter] ++ audit
                 ++ [OnLimitReached handler req info], s')
      | None =>
          Ok (hs ++ [SetHeader "Retry-After" retryAfter] ++ audit
                 ++ [Status 429;
                     Json (mkBody "RATE_LIMIT_EXCEEDED"
                                  (MergedConfig.message mergedConfig)
                                  retryAfter)], s')
      end
    else Ok (hs ++ [Next], s').

(** A middleware value: the limiter it closes over and its handler. *)
Record Middleware := mkMiddleware {
  limiter : RateLimiter.t;
  handle : Env -> Request -> gmap string RateLimitRecord
           -> result (list effect * gmap string RateLimitRecord)
}.

(** [createRateLimitMiddleware(config)]. *)
Definition createRateLimitMiddleware (config : RateLimitConfig.t) : Middleware :=
  mkMiddleware (RateLimiter.new config) (middleware config).

(** The effects of a middleware on a sequence of requests, starting from the
    store of its own limiter. *)
Fixpoint serve_from (m : Middleware) (reqs : list (Env * Request))
    (s : gmap string RateLimitRecord) : result (list (list effect)) :=
  match reqs with
  | [] => Ok []
  | (env, req) :: reqs' =>
      '(effects, s') ← handle m env req s;
      rest ← serve_from m reqs' s';
      Ok (effects :: rest)
  end.

Definition serve (m : Middleware) (reqs : list (Env * Request))
    : result (list (list effect)) :=
  serve_from m reqs (RateLimiter.store (limiter m)).

(** ** Presets *)

Inductive preset := strict | standard | relaxed | api | webhook | auth.

(** [RATE_LIMIT_PRESETS]: each entry is an object with the two fields
    [limit] and [windowMs]. *)
Definition RATE_LIMIT_PRESETS (p : preset) : RateLimitConfig.t :=
  let entry (limit windowMs : Z) :=
    RateLimitConfig.mk (Some limit) (Some windowMs)
      None None None None None None in
  match p with
  | strict => entry 30 (60 * 1000)
  | standard => entry 60 (60 * 1000)
  | relaxed => entry 120 (60 * 1000)
  | api => entry 1000 (60 * 60 * 1000)
  | webhook => entry 100 (60 * 1000)
  | auth => entry 10 (60 * 1000)
  end.

(** [createRateLimitFromPreset(preset, overrides)]. *)
Definition createRateLimitFromPreset (p : preset)
    (overrides : RateLimitConfig.t) : Middleware :=
  createRateLimitMiddleware
    (RateLimitConfig.spread (RATE_LIMIT_PRESETS p) overrides).

(** The specification's reading of a preset: a named (limit, window) pair,
    here with the values the documentation of each preset gives (requests per
    minute or per hour), the window in milliseconds. *)
Definition preset_literals (p : preset) : Z * Z :=
  match p with
  | strict => (30, 60000)
  | standard => (60, 60000)
  | relaxed => (120, 60000)
  | api => (1000, 3600000)
  | webhook => (100, 60000)
  | auth => (10, 60000)
  end.

(** The configuration that passes the literal values of a preset, any
    override of a field taking precedence. *)
Definition literal_config (p : preset) (overrides : RateLimitConfig.t)
    : RateLimitConfig.t :=
  RateLimitConfig.mk
    (Some (default (fst (preset_literals p)) (RateLimitConfig.limit overrides)))
    (Some (default (snd (preset_literals p))
                   (RateLimitConfig.windowMs overrides)))
    (RateLimitConfig.keyGenerator overrides)
    (RateLimitConfig.skip overrides)
    (RateLimitConfig.onLimitReached overrides)
    (RateLimitConfig.auditLog overrides)
    (RateLimitConfig.headers overrides)
    (RateLimitConfig.message overrides).

(** ** requireRateLimit *)

(** [requireRateLimit(limiter, key)]: [retryNow] is the reading taken when
    the retry delay is computed.  The call returns nothing or throws; either
    way the limiter keeps what [hit] did to its store. *)
Definition requireRateLimit (cfg : MergedConfig.t)
    (now nowc retryNow : Z) (key : string) (s : gmap string RateLimitRecord)
    : result unit * gmap string RateLimitRecord :=
  match RateLimiter.hit cfg now nowc key s with
  | Ok (info, s') =>
      if isLimited info
      then (Throw (RateLimitError (ceil_div_1000 (resetAt info - retryNow))),
            s')
      else (Ok tt, s')
  | Throw e => (Throw e, s)
  end.

(** ** createSharedRateLimiter *)

(** The middleware [createSharedRateLimiter] builds, applied to one request;
    the limiter it uses is the one the caller also receives, so both work on
    the same store. *)
Definition sharedMiddleware (config : RateLimitConfig.t) (env : Env)
    (req : Request) (s : gmap string RateLimitRecord)
    : result (list effect * gmap string RateLimitRecord) :=
  let mergedConfig := merge config in
  if skips config req
  then Ok ([Next], s)
  else
    let key := MergedConfig.keyGenerator mergedConfig req in
    '(info, s') ← RateLimiter.hit mergedConfig (hitNow env) (checkNow env) key s;
    let hs := if MergedConfig.headers mergedConfig
              then [ SetHeader "X-RateLimit-Limit" (limit info);
                     SetHeader "X-RateLimit-Remaining" (remaining info);
                     SetHeader "X-RateLimit-Reset"
                       (ceil_div_1000 (resetAt info)) ]
              else [] in
    if isLimited info then
      let retryAfter := ceil_div_1000 (resetAt info - retryNow env) in
      let hs := hs ++ [SetHeader "Retry-After" retryAfter] in
      let audit :=
        match RateLimitConfig.auditLog config with
        | Some sink =>
            [AuditLog sink
               (AuditEntry.mk (uuid env) (auditNow env) "rate_limit.exceeded"
                  key (path req) false
                  (AuditEntry.mkMetadata (method req) (limit info) retryAfter)
                  (ip req))]
        | None => []
        end in
      match RateLimitConfig.onLimitReached config with
      | Some handler =>
          Ok (hs ++ audit ++ [OnLimitReached handler req info], s')
      | None =>
          Ok (hs ++ audit
                 ++ [Status 429;
                     Json (mkBody "RATE_LIMIT_EXCEEDED"
                                  (MergedConfig.message mergedConfig)
                                  retryAfter)], s')
      end
    else Ok (hs ++ [Next], s').

(** The object [createSharedRateLimiter] returns. *)
Module SharedRateLimiter.
Record t := mk {
  limiter : RateLimiter.t;
  middleware : Env -> Request -> gmap string RateLimitRecord
               -> result (list effect * gmap string RateLimitRecord)
}.
End SharedRateLimiter.

Definition createSharedRateLimiter (config : RateLimitConfig.t)
    : SharedRateLimiter.t :=
  SharedRateLimiter.mk (RateLimiter.new config) (sharedMiddleware config).

(** ** Fixtures of the test suite *)

(** [RATE_LIMIT_CONFIGS.testStrict] (2 requests per 100 ms) and
    [RATE_LIMIT_CONFIGS.testSingle] (1 request per 100 ms). *)
Definition testStrict : RateLimitConfig.t :=
  RateLimitConfig.mk (Some 2) (Some 100) None None None None None None.

Definition testSingle : RateLimitConfig.t :=
  RateLimitConfig.mk (Some 1) (Some 100) None None None None None None.

(** ** Notions the properties are stated with *)

(** The timestamps a store holds for a key; none when it has no record. *)
Definition timestamps_of (s : gmap string RateLimitRecord) (key : string)
    : list Z :=
  timestamps (default (mkRecord [] 0) (s !! key)).

(** The timestamps of a key that are inside the window that ends at [now]. *)
Definition live (cfg : MergedConfig.t) (now : Z)
    (s : gmap string RateLimitRecord) (key : string) : list Z :=
  filter (fun ts => ts > now - MergedConfig.windowMs cfg) (timestamps_of s key).

(** A record whose last access predates [now - 2 * windowMs]. *)
Definition expired (cfg : MergedConfig.t) (now : Z) (record : RateLimitRecord)
    : Prop :=
  lastAccess record < now - 2 * MergedConfig.windowMs cfg.

Global Instance expired_dec cfg now record : Decision (expired cfg now record).
Proof. unfold expired. apply _. Defined.

(** A record none of whose timestamps is inside a window that ends at [T] or
    later. *)
Definition dead_at (cfg : MergedConfig.t) (T : Z) (record : RateLimitRecord)
    : Prop :=
  Forall (fun ts => ts <= T - MergedConfig.windowMs cfg) (timestamps record).

(** Two stores that agree on every key, except that the first may lack
    records the second holds and that satisfy [D]. *)
Definition sim (D : RateLimitRecord -> Prop)
    (s1 s2 : gmap string RateLimitRecord) : Prop :=
  forall k, s1 !! k = s2 !! k \/
            (s1 !! k = None /\ exists r, s2 !! k = Some r /\ D r).

(** No timestamp of a record exceeds its last access, and no last access
    exceeds the clock [T]. *)
Definition store_wf (T : Z) (s : gmap string RateLimitRecord) : Prop :=
  forall k r, s !! k = Some r ->
    Forall (fun ts => ts <= lastAccess r) (timestamps r) /\ lastAccess r <= T.

(** The clock after a call, given the clock [T] before it: its last
    reading. *)
Definition clock_after_op (T : Z) (o : op) : Z :=
  List.last (op_readings o) T.

(** The readings of a call never go back: each is at least the one before,
    the first at least the clock [T]. *)
Fixpoint ascending (T : Z) (readings : list Z) : Prop :=
  match readings with
  | [] => True
  | t :: readings' => T <= t /\ ascending t readings'
  end.

(** A history of calls in which the clock never goes back, from clock [T]. *)
Fixpoint chronological (T : Z) (ops : list op) : Prop :=
  match ops with
  | [] => True
  | o :: ops' =>
      ascending T (op_readings o) /\ chronological (clock_after_op T o) ops'
  end.

Fixpoint clock_after (T : Z) (ops : list op) : Z :=
  match ops with
  | [] => T
  | o :: ops' => clock_after (clock_after_op T o) ops'
  end.

(** The view of a key without timestamps: the whole allowance. *)
Definition fullAllowance (cfg : MergedConfig.t) (now : Z) : RateLimitInfo :=
  mkInfo (MergedConfig.limit cfg) (Z.max 0 (MergedConfig.limit cfg))
         (now + MergedConfig.windowMs cfg)
         (bool_decide (MergedConfig.limit cfg <= 0)).

(** No record holds more timestamps than the limit allows. *)
Definition capacity (cfg : MergedConfig.t) (s : gmap string RateLimitRecord)
    : Prop :=
  forall k r, s !! k = Some r ->
    Z.of_nat (length (timestamps r)) <= Z.max 0 (MergedConfig.limit cfg).

(** The timestamps of the hits on [key] that a history admitted, in order:
    [ops] are the calls and [outs] what they returned. *)
Fixpoint admitted (key : string) (ops : list op)
    (outs : list (option RateLimitInfo)) : list Z :=
  match ops, outs with
  | o :: ops', out :: outs' =>
      match o, out with
      | OpHit k now _, Some info =>
          if decide (k = key)
          then if isLimited info then [] else [now]
          else []
      | _, _ => []
      end ++ admitted key ops' outs'
  | _, _ => []
  end.

(** The calls that give allowance back by hand. *)
Definition is_reset (o : op) : bool :=
  match o with
  | OpReset _ | OpResetAll => true
  | _ => false
  end.

(** The audit entries among the effects of a call, and the values written
    to one header, in order. *)
Definition audits (effects : list effect) : list AuditEntry.t :=
  flat_map (fun e => match e with AuditLog _ entry => [entry] | _ => [] end)
           effects.

Definition header_writes (name : string) (effects : list effect) : list Z :=
  flat_map (fun e => match e with
                     | SetHeader n v => if decide (n = name) then [v] else []
                     | _ => []
                     end) effects.

(** The effects of the requests the skip predicate does not exempt. *)
Fixpoint gated_effects (config : RateLimitConfig.t)
    (reqs : list (Env * Request)) (effects : list (list effect))
    : list (list effect) :=
  match reqs, effects with
  | (_, req) :: reqs', e :: effects' =>
      if skips config req then gated_effects config reqs' effects'
      else e :: gated_effects config reqs' effects'
  | _, _ => []
  end.

(** The admitted timestamps [A] and the record of [key] show the same
    timestamps in the window that ends at [T]. *)
Definition window_agrees (cfg : MergedConfig.t) (key : string) (T : Z)
    (A : list Z) (s : gmap string RateLimitRecord) : Prop :=
  filter (fun ts => ts > T - MergedConfig.windowMs cfg) A = live cfg T s key.

(** The calls of [next], of a custom handler, and the writes of a status or
    a body among the effects of a call. *)
Definition next_calls (effects : list effect) : nat :=
  length (flat_map (fun e => match e with Next => [tt] | _ => [] end) effects).

Definition handler_calls (effects : list effect)
    : list (callback * Request * RateLimitInfo) :=
  flat_map (fun e => match e with
                     | OnLimitReached h req info => [(h, req, info)]
                     | _ => []
                     end) effects.

Definition response_writes (effects : list effect) : list effect :=
  flat_map (fun e => match e with
                     | Status _ | Json _ => [e]
                     | _ => []
                     end) effects.

(** [from - 1], [from - 2], ..., [n] values counting down. *)
Fixpoint countdown (from : Z) (n : nat) : list Z :=
  match n with
  | O => []
  | S n' => (from - 1) :: countdown (from - 1) n'
  end.

(** The oldest of a list of timestamps: the smallest one. *)
Definition oldest (l : list Z) : option Z :=
  foldr (fun ts acc => Some (match acc with
                             | Some m => Z.min ts m
                             | None => ts
                             end)) None l.

(** Every record holds its timestamps in the order of a clock that did not
    go back, and none of them is before [lo]. *)
Definition store_sorted (lo : Z) (s : gmap string RateLimitRecord) : Prop :=
  forall k r, s !! k = Some r ->
    StronglySorted Z.le (timestamps r) /\
    Forall (fun ts => lo <= ts) (timestamps r).

(** * Properties *)

(** The staggered scenario of the suite ("should use sliding window
    correctly"): limit 2, window 100 ms, hits 0, 60, 65 and 125 ms after the
    instant 1000. *)
Example sliding_window_fixture :
  let ops := [OpHit "k" 1000 1000; OpHit "k" 1060 1060; OpHit "k" 1065 1065;
              OpHit "k" 1125 1125] in
  fst <$> run (merge testStrict) ops ∅ =
  Ok [Some (mkInfo 2 1 1100 false); Some (mkInfo 2 0 1100 false);
      Some (mkInfo 2 0 1100 true); Some (mkInfo 2 0 1160 false)].
Proof. vm_compute. reflexivity. Qed.

(** ** Elementary facts on [check] and [hit] *)

Section LimiterFacts.
Variable cfg : MergedConfig.t.

Local Abbreviation W := (MergedConfig.windowMs cfg).
Local Abbreviation L := (MergedConfig.limit cfg).
Local Abbreviation live := (live cfg).
Local Abbreviation expired := (expired cfg).

Lemma checked_record_live now key s :
  RateLimiter.checked_record cfg now key s = mkRecord (live now s key) now.
Proof.
  unfold RateLimiter.checked_record, live, timestamps_of.
  destruct (s !! key); reflexivity.
Qed.

Lemma check_eq now key s :
  RateLimiter.check cfg now key s =
  (RateLimiter.info_of cfg now (mkRecord (live now s key) now),
   <[key := mkRecord (live now s key) now]> s).
Proof.
  unfold RateLimiter.check. rewrite checked_record_live. reflexivity.
Qed.

(** [check] leaves a record under the key, which is why the lookup in
    [hit] cannot fail. *)
Lemma check_creates_record now key s :
  is_Some (snd (RateLimiter.check cfg now key s) !! key).
Proof. rewrite check_eq. simpl. rewrite lookup_insert_eq. eauto. Qed.

Lemma check_other_key now key k s :
  key <> k -> snd (RateLimiter.check cfg now key s) !! k = s !! k.
Proof. intros Hne. rewrite check_eq. simpl. by rewrite lookup_insert_ne. Qed.

(** The closed form of [hit]: it never throws. *)
Lemma hit_eq now nowc key s :
  RateLimiter.hit cfg now nowc key s =
  let info := RateLimiter.info_of cfg nowc (mkRecord (live nowc s key) nowc) in
  Ok (if isLimited info
      then (info, <[key := mkRecord (live nowc s key) nowc]> s)
      else (mkInfo (limit info) (Z.max 0 (remaining info - 1))
                   (resetAt info) false,
            <[key := mkRecord (live nowc s key ++ [now]) nowc]> s)).
Proof.
  unfold RateLimiter.hit. rewrite check_eq. cbv zeta.
  destruct (isLimited _) eqn:Hlim; [reflexivity|].
  rewrite lookup_insert_eq, insert_insert_eq. reflexivity.
Qed.

Lemma hit_other_key now nowc key k s info s' :
  key <> k ->
  RateLimiter.hit cfg now nowc key s = Ok (info, s') ->
  s' !! k = s !! k.
Proof.
  intros Hne. rewrite hit_eq. cbv zeta.
  destruct (isLimited _); intros [= <- <-]; by rewrite lookup_insert_ne.
Qed.

Lemma isLimited_iff now record :
  isLimited (RateLimiter.info_of cfg now record) = true <->
  L <= Z.of_nat (length (timestamps record)).
Proof.
  unfold RateLimiter.info_of. simpl. rewrite bool_decide_eq_true. lia.
Qed.

Lemma isLimited_false_iff now record :
  isLimited (RateLimiter.info_of cfg now record) = false <->
  Z.of_nat (length (timestamps record)) < L.
Proof.
  unfold RateLimiter.info_of. simpl. rewrite bool_decide_eq_false. lia.
Qed.

(** ** The sweep *)

Lemma cleanup_step_expired now s k r :
  expired now r -> RateLimiter.cleanup_step cfg now s (k, r) = delete k s.
Proof.
  unfold expired, RateLimiter.cleanup_step. simpl. intros H.
  destruct (decide _); [reflexivity | lia].
Qed.

Lemma cleanup_step_kept now s k r :
  ~ expired now r -> RateLimiter.cleanup_step cfg now s (k, r) = s.
Proof.
  unfold expired, RateLimiter.cleanup_step. simpl. intros H.
  destruct (decide _); [lia | reflexivity].
Qed.

Lemma cleanup_step_lookup_ne now s k k' r :
  k <> k' -> RateLimiter.cleanup_step cfg now s (k, r) !! k' = s !! k'.
Proof.
  intros Hne. destruct (decide (expired now r)).
  - rewrite cleanup_step_expired by done. by rewrite lookup_delete_ne.
  - by rewrite cleanup_step_kept.
Qed.

Lemma cleanup_loop_absent now entries : forall s k,
  s !! k = None ->
  foldl (RateLimiter.cleanup_step cfg now) s entries !! k = None.
Proof.
  induction entries as [|[k' r] entries IH]; intros s k Hk; simpl; [done|].
  apply IH. destruct (decide (expired now r)).
  - rewrite cleanup_step_expired by done.
    rewrite lookup_delete. case_decide; done.
  - by rewrite cleanup_step_kept.
Qed.

Lemma cleanup_loop_evicts now entries : forall s k r,
  (k, r) ∈ entries -> expired now r ->
  foldl (RateLimiter.cleanup_step cfg now) s entries !! k = None.
Proof.
  induction entries as [|[k' r'] entries IH]; intros s k r Hin Hexp; simpl.
  - by apply elem_of_nil in Hin.
  - apply elem_of_cons in Hin as [[= <- <-] | Hin].
    + apply cleanup_loop_absent. rewrite cleanup_step_expired by done.
      apply lookup_delete_eq.
    + by eapply IH.
Qed.

Lemma cleanup_loop_keeps now entries : forall s k,
  (forall r, (k, r) ∈ entries -> ~ expired now r) ->
  foldl (RateLimiter.cleanup_step cfg now) s entries !! k = s !! k.
Proof.
  induction entries as [|[k' r'] entries IH]; intros s k Hall; simpl; [done|].
  rewrite IH.
  - destruct (decide (k' = k)) as [->|Hne].
    + rewrite cleanup_step_kept; [done|]. apply Hall. by left.
    + by apply cleanup_step_lookup_ne.
  - intros r Hin. apply Hall. by right.
Qed.

Lemma cleanup_lookup now s k :
  RateLimiter.cleanup cfg now s !! k =
  match s !! k with
  | Some record => if decide (expired now record) then None else Some record
  | None => None
  end.
Proof.
  unfold RateLimiter.cleanup.
  destruct (s !! k) as [r|] eqn:Hk.
  - destruct (decide (expired now r)) as [Hexp|Hexp].
    + eapply cleanup_loop_evicts; [|exact Hexp].
      by apply elem_of_map_to_list.
    + rewrite cleanup_loop_keeps; [done|].
      intros r' Hin. apply elem_of_map_to_list in Hin.
      by replace r' with r by congruence.
  - by apply cleanup_loop_absent.
Qed.

End LimiterFacts.

Lemma timestamps_of_insert s key record :
  timestamps_of (<[key := record]> s) key = timestamps record.
Proof. unfold timestamps_of. by rewrite lookup_insert_eq. Qed.

(** ** What [hit] does (C2) *)

(** C2. For every key and every store, [hit(key)] first evaluates
    [check(key)], which leaves the pruned record under the key.  If the
    result is limited, [hit] returns that result and the store [check] left:
    no timestamp is appended.  If it is not limited, [hit] appends its own
    reading of the clock to the record of the key and returns the result of
    [check] with [remaining] decremented by one, floored at 0. *)
Theorem hit_checks_then_appends (cfg : MergedConfig.t) (now nowc : Z)
    (key : string) (s : gmap string RateLimitRecord) :
  let info := fst (RateLimiter.check cfg nowc key s) in
  let s1 := snd (RateLimiter.check cfg nowc key s) in
  s1 !! key = Some (mkRecord (live cfg nowc s key) nowc) /\
  RateLimiter.hit cfg now nowc key s =
    Ok (if isLimited info
        then (info, s1)
        else (mkInfo (limit info) (Z.max 0 (remaining info - 1))
                     (resetAt info) (isLimited info),
              <[key := mkRecord (live cfg nowc s key ++ [now]) nowc]> s1)).
Proof.
  rewrite hit_eq, check_eq. cbv zeta. simpl fst. simpl snd.
  split; [apply lookup_insert_eq|].
  destruct (isLimited _) eqn:Hlim; [reflexivity|].
  by rewrite insert_insert_eq.
Qed.

(** An admitted hit had at least one slot, so the floor at 0 is never
    reached: the count goes down by exactly one. *)
Lemma hit_accepted_remaining cfg now nowc key s info s' :
  RateLimiter.hit cfg now nowc key s = Ok (info, s') ->
  isLimited info = false ->
  remaining info =
    MergedConfig.limit cfg - Z.of_nat (length (live cfg nowc s key)) - 1 /\
  0 <= remaining info /\
  timestamps_of s' key = live cfg nowc s key ++ [now].
Proof.
  rewrite hit_eq. cbv zeta.
  destruct (isLimited _) eqn:Hlim; intros [= <- <-] Hadm; [congruence|].
  apply isLimited_false_iff in Hlim. cbn [timestamps] in Hlim.
  rewrite timestamps_of_insert.
  unfold RateLimiter.info_of. cbn [remaining limit resetAt timestamps].
  split; [lia|]. split; [lia | reflexivity].
Qed.

Lemma filter_all_of_length {A} (P : A -> Prop) `{!forall x, Decision (P x)}
    (l : list A) :
  (length l <= length (filter P l))%nat -> filter P l = l.
Proof.
  induction l as [|x l IH]; [done|].
  rewrite filter_cons. pose proof (length_filter P l) as Hle.
  destruct (decide (P x)); simpl; intros Hlen.
  - f_equal. apply IH. lia.
  - lia.
Qed.

(** On a record that holds no more timestamps than the limit allows (as
    every record the limiter builds does), a rejected hit prunes nothing:
    the timestamps of the key are those of before the call. *)
Lemma rejected_hit_keeps_timestamps cfg now nowc key s info s' :
  Z.of_nat (length (timestamps_of s key)) <= Z.max 0 (MergedConfig.limit cfg) ->
  RateLimiter.hit cfg now nowc key s = Ok (info, s') ->
  isLimited info = true ->
  timestamps_of s' key = timestamps_of s key.
Proof.
  intros Hlen. rewrite hit_eq. cbv zeta.
  destruct (isLimited _) eqn:Hlim; intros [= <- <-] Hrej; [|simpl in Hrej; congruence].
  apply isLimited_iff in Hlim. simpl in Hlim.
  unfold timestamps_of at 1. rewrite lookup_insert_eq. simpl.
  apply filter_all_of_length.
  pose proof (length_filter (fun ts => ts > nowc - MergedConfig.windowMs cfg)
                (timestamps_of s key)) as Hle.
  unfold live in Hlim |- *.
  destruct (timestamps_of s key) as [|t l] eqn:E; [simpl; lia|].
  rewrite <- E in *. lia.
Qed.

(** ** The reset instant (C5) *)

(** The reset instant [check] reports, by cases on the oldest timestamp that
    survives the pruning. *)
Lemma check_resetAt cfg now key s :
  resetAt (fst (RateLimiter.check cfg now key s)) =
  match head (live cfg now s key) with
  | Some oldest =>
      if decide (oldest = 0) then now + MergedConfig.windowMs cfg
      else oldest + MergedConfig.windowMs cfg
  | None => now + MergedConfig.windowMs cfg
  end.
Proof.
  rewrite check_eq. simpl.
  destruct (head _) as [t|]; [|reflexivity].
  unfold truthy. destruct (decide (t = 0)) as [->|Hne]; [reflexivity|].
  destruct (Z.eqb_spec t 0); [done | reflexivity].
Qed.

(** At the epoch millisecond itself: a first hit taken when the clock reads
    0 leaves the timestamp 0; a check at 50 ms with a window of 100 ms keeps
    it, and the truthiness test takes it for a missing one, so the reset
    instant reported is [now + windowMs = 150]. *)
Example check_resetAt_at_timestamp_zero :
  let cfg := merge testStrict in
  let s : gmap string RateLimitRecord := {["k" := mkRecord [0] 0]} in
  RateLimiter.hit cfg 0 0 "k" ∅ = Ok (mkInfo 2 1 100 false, s) /\
  live cfg 50 s "k" = [0] /\
  resetAt (fst (RateLimiter.check cfg 50 "k" s)) = 150 /\
  resetAt (fst (RateLimiter.check cfg 50 "k" s))
    <> 0 + MergedConfig.windowMs cfg.
Proof. vm_compute. repeat split; try reflexivity. discriminate. Qed.

(** ** The sweep (C7) *)

(** C7. The sweep is scheduled with a fixed period of one minute, whatever
    the configuration, and no method but [stop] touches the timer.  When it
    runs at [now], it evicts exactly the records whose last access predates
    [now - 2 * windowMs]: their keys have no record afterwards, and every
    other key has the record it had. *)
Theorem cleanup_evicts_exactly_idle (config : RateLimitConfig.t)
    (cfg : MergedConfig.t) (now : Z) (s : gmap string RateLimitRecord)
    (k : string) :
  RateLimiter.cleanupInterval (RateLimiter.new config)
    = Some (RateLimiter.mkInterval 60000 true) /\
  RateLimiter.cleanup cfg now s !! k =
    match s !! k with
    | Some record =>
        if decide (lastAccess record < now - 2 * MergedConfig.windowMs cfg)
        then None else Some record
    | None => None
    end.
Proof.
  split; [reflexivity|].
  rewrite cleanup_lookup. destruct (s !! k) as [r|]; [|reflexivity].
  repeat case_decide; unfold expired in *; done.
Qed.

(** ** Independence of keys (C6) *)

Lemma step_on_key_frame cfg A B o s :
  A <> B -> op_key o = Some A ->
  exists out s', step cfg o s = Ok (out, s') /\ s' !! B = s !! B.
Proof.
  intros Hne Hkey.
  destruct o as [k now|k now|k now nowc|k| |now]; simpl in Hkey;
    try discriminate; injection Hkey as ->; cbn [step].
  - rewrite check_eq. do 2 eexists. split; [reflexivity|].
    by rewrite lookup_insert_ne.
  - unfold RateLimiter.getInfo. rewrite check_eq.
    do 2 eexists. split; [reflexivity|]. by rewrite lookup_insert_ne.
  - rewrite hit_eq. cbv zeta. destruct (isLimited _); simpl;
      do 2 eexists; (split; [reflexivity|]); by rewrite lookup_insert_ne.
  - do 2 eexists. split; [reflexivity|].
    unfold RateLimiter.reset. by rewrite lookup_delete_ne.
Qed.

Lemma run_on_key_frame cfg A B ops : forall s,
  A <> B -> Forall (fun o => op_key o = Some A) ops ->
  exists outs s', run cfg ops s = Ok (outs, s') /\ s' !! B = s !! B.
Proof.
  induction ops as [|o ops IH]; intros s Hne Hall; simpl.
  - by do 2 eexists.
  - apply Forall_cons_iff in Hall as [Ho Hall].
    destruct (step_on_key_frame cfg A B o s Hne Ho) as (out & s1 & -> & H1).
    destruct (IH s1 Hne Hall) as (outs & s2 & Hrun & H2).
    simpl. rewrite Hrun. simpl. do 2 eexists. split; [reflexivity|].
    congruence.
Qed.

(** What [check] and [hit] return for a key depends on the store only
    through the record of that key. *)
Lemma check_info_local cfg now key s s' :
  s' !! key = s !! key ->
  fst (RateLimiter.check cfg now key s') = fst (RateLimiter.check cfg now key s).
Proof.
  intros H. rewrite !check_eq. simpl. unfold live, timestamps_of.
  by rewrite H.
Qed.

Lemma hit_info_local cfg now nowc key s s' :
  s' !! key = s !! key ->
  fst <$> RateLimiter.hit cfg now nowc key s'
  = fst <$> RateLimiter.hit cfg now nowc key s.
Proof.
  intros H. rewrite !hit_eq. cbv zeta. unfold live, timestamps_of.
  rewrite H. by destruct (isLimited _).
Qed.

(** C6. Keys are independent: after any sequence of [hit], [check],
    [getInfo] and [reset] calls on a key [A], the record of a different key
    [B] is the one it was, and so [check] and [hit] return for [B] the very
    [RateLimitInfo] (remaining count included) they would have returned had
    the calls on [A] not happened. *)
Theorem keys_independent (cfg : MergedConfig.t) (A B : string)
    (ops : list op) (s : gmap string RateLimitRecord) :
  A <> B ->
  Forall (fun o => op_key o = Some A) ops ->
  exists outs s',
    run cfg ops s = Ok (outs, s') /\
    s' !! B = s !! B /\
    (forall now,
       fst (RateLimiter.check cfg now B s') = fst (RateLimiter.check cfg now B s)) /\
    (forall now nowc,
       fst <$> RateLimiter.hit cfg now nowc B s'
       = fst <$> RateLimiter.hit cfg now nowc B s).
Proof.
  intros Hne Hall.
  destruct (run_on_key_frame cfg A B ops s Hne Hall) as (outs & s' & Hrun & HB).
  exists outs, s'. repeat split.
  - exact Hrun.
  - exact HB.
  - intros now. by apply check_info_local.
  - intros now nowc. by apply hit_info_local.
Qed.

(** Exhausting key ["a"] under the strict fixture and looking at ["b"]. *)
Lemma keys_independent_witness :
  let cfg := merge testStrict in
  let ops := [OpHit "a" 0 0; OpHit "a" 1 1; OpHit "a" 2 2; OpCheck "a" 3] in
  "a" <> "b" /\
  Forall (fun o => op_key o = Some "a") ops /\
  exists outs s',
    run cfg ops ∅ = Ok (outs, s') /\
    s' !! "b" = (∅ : gmap string RateLimitRecord) !! "b" /\
    (forall now,
       fst (RateLimiter.check cfg now "b" s')
       = fst (RateLimiter.check cfg now "b" ∅)) /\
    (forall now nowc,
       fst <$> RateLimiter.hit cfg now nowc "b" s'
       = fst <$> RateLimiter.hit cfg now nowc "b" ∅).
Proof.
  cbv zeta.
  assert (Hne : "a" <> "b") by discriminate.
  assert (Hall : Forall (fun o => op_key o = Some "a")
                   [OpHit "a" 0 0; OpHit "a" 1 1; OpHit "a" 2 2; OpCheck "a" 3])
    by (repeat constructor).
  split; [exact Hne|]. split; [exact Hall|].
  exact (keys_independent (merge testStrict) "a" "b" _ ∅ Hne Hall).
Defined.

(** ** Sliding-window admission (C1) *)

Lemma filter_window_all (W a b tc : Z) (l : list Z) :
  b - a < W -> Forall (fun x => a <= x <= b) l -> a <= tc <= b ->
  filter (fun ts => ts > tc - W) l = l.
Proof.
  intros HW Hall Htc. induction Hall as [|x l Hx Hall IH]; [done|].
  rewrite filter_cons. destruct (decide (x > tc - W)); [by rewrite IH | lia].
Qed.

(** Hits that all fall in a stretch shorter than the window are admitted as
    long as the limit is not reached, and their timestamps pile up. *)
Lemma burst_all_pass cfg key (a b : Z) burst : forall s pre,
  b - a < MergedConfig.windowMs cfg ->
  timestamps_of s key = pre ->
  Forall (fun x => a <= x <= b) pre ->
  Forall (fun p => a <= fst p <= b /\ a <= snd p <= b) burst ->
  Z.of_nat (length pre + length burst) <= MergedConfig.limit cfg ->
  exists infos s1,
    run cfg (hits key burst) s = Ok (infos, s1) /\
    Forall (fun o => isLimited <$> o = Some false) infos /\
    timestamps_of s1 key = pre ++ map fst burst.
Proof.
  induction burst as [|[t tc] burst IH]; intros s pre HW Hpre Hin Hall Hlen.
  - exists [], s. simpl. by rewrite app_nil_r.
  - apply Forall_cons_iff in Hall as [[Ht Htc] Hall].
    simpl in Ht, Htc.
    assert (Hlive : live cfg tc s key = pre).
    { unfold live. rewrite Hpre. by eapply filter_window_all. }
    change (hits key ((t, tc) :: burst))
      with (OpHit key t tc :: hits key burst).
    cbn [run step fst snd]. rewrite hit_eq. cbv zeta. rewrite Hlive.
    destruct (isLimited _) eqn:Hlim.
    { apply isLimited_iff in Hlim. simpl in Hlim, Hlen. lia. }
    cbn [mbind result_bind].
    destruct (IH (<[key := mkRecord (pre ++ [t]) tc]> s) (pre ++ [t]))
      as (infos & s1 & Hrun & Hadm & Hts).
    + exact HW.
    + apply timestamps_of_insert.
    + apply Forall_app. split; [done|]. by constructor.
    + exact Hall.
    + rewrite length_app. simpl in *. lia.
    + rewrite Hrun. cbn [mbind result_bind].
      do 2 eexists. split; [reflexivity|]. split.
      * constructor; [reflexivity | exact Hadm].
      * rewrite Hts, <- app_assoc. reflexivity.
Qed.

(** C1. Sliding-window admission.  Take any configuration with limit [L]
    and window [W], a key without a record, and [L] hits whose clock
    readings all lie in a stretch [[a, b]] shorter than [W].  All [L] hits
    are admitted; a further hit checked inside the same stretch is limited;
    and the next hit, checked at least [W] after the timestamp of the first
    hit, is not limited, since that timestamp has left the window (for
    [L = 0] there is no first hit and every hit is limited). *)
Theorem sliding_window_admission (cfg : MergedConfig.t) (key : string)
    (s : gmap string RateLimitRecord) (burst : list (Z * Z))
    (a b t tc late latec : Z) :
  s !! key = None ->
  Z.of_nat (length burst) = MergedConfig.limit cfg ->
  b - a < MergedConfig.windowMs cfg ->
  Forall (fun p => a <= fst p <= b /\ a <= snd p <= b) burst ->
  a <= tc <= b ->
  (forall first, head burst = Some first ->
                 fst first + MergedConfig.windowMs cfg <= latec) ->
  exists infos s1 i1 s2 i2 s3,
    run cfg (hits key burst) s = Ok (infos, s1) /\
    Forall (fun o => isLimited <$> o = Some false) infos /\
    RateLimiter.hit cfg t tc key s1 = Ok (i1, s2) /\
    isLimited i1 = true /\
    RateLimiter.hit cfg late latec key s2 = Ok (i2, s3) /\
    isLimited i2 = bool_decide (MergedConfig.limit cfg = 0).
Proof.
  intros Hfresh Hlen HW Hall Htc Hlate.
  destruct (burst_all_pass cfg key a b burst s [] HW) as (infos & s1 & Hrun & Hadm & Hts).
  { unfold timestamps_of. by rewrite Hfresh. }
  { constructor. }
  { exact Hall. }
  { simpl. lia. }
  simpl in Hts.
  assert (Hstamps : Forall (fun x => a <= x <= b) (map fst burst)).
  { apply Forall_fmap. eapply Forall_impl; [|exact Hall].
    intros p [Hp _]. exact Hp. }
  assert (Hlive : live cfg tc s1 key = map fst burst).
  { unfold live. rewrite Hts. by eapply filter_window_all. }
  exists infos, s1. rewrite (hit_eq cfg t tc). cbv zeta. rewrite Hlive.
  destruct (isLimited _) eqn:Hlim.
  2:{ apply isLimited_false_iff in Hlim. simpl in Hlim.
      rewrite length_map in Hlim. lia. }
  do 2 eexists. rewrite hit_eq. cbv zeta.
  assert (Hlive2 :
    live cfg latec (<[key := mkRecord (map fst burst) tc]> s1) key
    = filter (fun ts => ts > latec - MergedConfig.windowMs cfg) (map fst burst)).
  { unfold live. by rewrite timestamps_of_insert. }
  rewrite Hlive2.
  destruct (isLimited (RateLimiter.info_of cfg latec _)) eqn:Hlim2.
  - do 2 eexists. repeat split; try reflexivity; try done.
    rewrite Hlim2. apply isLimited_iff in Hlim2. simpl in Hlim2.
    symmetry. apply bool_decide_eq_true.
    destruct burst as [|first rest]; [simpl in Hlen; lia|].
    specialize (Hlate first eq_refl).
    simpl in Hlim2. rewrite filter_cons in Hlim2.
    destruct (decide (fst first > latec - MergedConfig.windowMs cfg)); [lia|].
    pose proof (length_filter
                  (fun ts => ts > latec - MergedConfig.windowMs cfg)
                  (map fst rest)) as Hle.
    rewrite length_map in Hle. simpl in Hlen. lia.
  - do 2 eexists. repeat split; try reflexivity; try done.
    cbn [isLimited]. apply isLimited_false_iff in Hlim2. simpl in Hlim2.
    symmetry. apply bool_decide_eq_false. lia.
Qed.

(** The staggered scenario of the specification: limit 2, window 100 ms,
    hits at 0 and 60 ms, a hit at 65 ms, a hit at 125 ms. *)
Lemma sliding_window_admission_witness :
  let cfg := merge testStrict in
  let burst := [(0, 0); (60, 60)] in
  exists infos s1 i1 s2 i2 s3,
    run cfg (hits "k" burst) ∅ = Ok (infos, s1) /\
    Forall (fun o => isLimited <$> o = Some false) infos /\
    RateLimiter.hit cfg 65 65 "k" s1 = Ok (i1, s2) /\
    isLimited i1 = true /\
    RateLimiter.hit cfg 125 125 "k" s2 = Ok (i2, s3) /\
    isLimited i2 = bool_decide (MergedConfig.limit cfg = 0).
Proof.
  cbv zeta.
  apply (sliding_window_admission (merge testStrict) "k" ∅
           [(0, 0); (60, 60)] 0 65 65 65 125 125).
  - reflexivity.
  - reflexivity.
  - simpl. lia.
  - repeat constructor; simpl; lia.
  - lia.
  - intros first [= <-]. simpl. lia.
Defined.

(** ** Stores that differ by dead records *)

Section Simulation.
Variable cfg : MergedConfig.t.
Variable D : RateLimitRecord -> Prop.
Variable P : Z -> Prop.

(** At every admissible reading, a record of [D] has no timestamp inside
    the window. *)
Hypothesis D_dead : forall r t, D r -> P t ->
  filter (fun ts => ts > t - MergedConfig.windowMs cfg) (timestamps r) = [].

Lemma sim_live s1 s2 t k :
  sim D s1 s2 -> P t -> live cfg t s1 k = live cfg t s2 k.
Proof.
  intros Hsim Ht. unfold live, timestamps_of.
  destruct (Hsim k) as [-> | (-> & r & -> & Hr)]; [done|].
  simpl. symmetry. by apply D_dead.
Qed.

Lemma sim_insert s1 s2 k r :
  sim D s1 s2 -> sim D (<[k := r]> s1) (<[k := r]> s2).
Proof.
  intros Hsim k'. destruct (decide (k = k')) as [->|Hne].
  - left. by rewrite !lookup_insert_eq.
  - rewrite !lookup_insert_ne by done. apply Hsim.
Qed.

Lemma sim_delete s1 s2 k :
  sim D s1 s2 -> sim D (delete k s1) (delete k s2).
Proof.
  intros Hsim k'. destruct (decide (k = k')) as [->|Hne].
  - left. by rewrite !lookup_delete_eq.
  - rewrite !lookup_delete_ne by done. apply Hsim.
Qed.

Lemma sim_cleanup s1 s2 now :
  sim D s1 s2 ->
  sim D (RateLimiter.cleanup cfg now s1) (RateLimiter.cleanup cfg now s2).
Proof.
  intros Hsim k. rewrite !cleanup_lookup.
  destruct (Hsim k) as [-> | (-> & r & -> & Hr)]; [by left|].
  case_decide; [by left | right; eauto].
Qed.

Lemma sim_step o s1 s2 :
  sim D s1 s2 -> Forall P (op_readings o) ->
  exists out s1' s2',
    step cfg o s1 = Ok (out, s1') /\ step cfg o s2 = Ok (out, s2') /\
    sim D s1' s2'.
Proof.
  intros Hsim HP.
  destruct o as [k now|k now|k now nowc|k| |now]; cbn [step op_readings] in *.
  - apply Forall_cons_iff in HP as [Hnow _].
    rewrite !check_eq, (sim_live s1 s2) by done.
    do 3 eexists. repeat split; try reflexivity. by apply sim_insert.
  - apply Forall_cons_iff in HP as [Hnow _].
    unfold RateLimiter.getInfo.
    rewrite !check_eq, (sim_live s1 s2) by done.
    do 3 eexists. repeat split; try reflexivity. by apply sim_insert.
  - apply Forall_cons_iff in HP as [_ HP].
    apply Forall_cons_iff in HP as [Hnowc _].
    rewrite !hit_eq. cbv zeta. rewrite (sim_live s1 s2) by done.
    destruct (isLimited _); cbn [mbind result_bind];
      do 3 eexists; repeat split; try reflexivity; by apply sim_insert.
  - do 3 eexists. repeat split; try reflexivity. by apply sim_delete.
  - do 3 eexists. repeat split; try reflexivity. intros k. by left.
  - do 3 eexists. repeat split; try reflexivity. by apply sim_cleanup.
Qed.

Lemma sim_run ops : forall s1 s2,
  sim D s1 s2 -> Forall (fun o => Forall P (op_readings o)) ops ->
  exists outs s1' s2',
    run cfg ops s1 = Ok (outs, s1') /\ run cfg ops s2 = Ok (outs, s2') /\
    sim D s1' s2'.
Proof.
  induction ops as [|o ops IH]; intros s1 s2 Hsim HP.
  - exists [], s1, s2. by repeat split.
  - apply Forall_cons_iff in HP as [Ho HP].
    destruct (sim_step o s1 s2 Hsim Ho) as (out & t1 & t2 & E1 & E2 & Hsim').
    destruct (IH t1 t2 Hsim' HP) as (outs & u1 & u2 & F1 & F2 & Hsim'').
    exists (out :: outs), u1, u2. cbn [run].
    rewrite E1, E2. cbn [mbind result_bind]. rewrite F1, F2.
    by repeat split.
Qed.

End Simulation.

(** Every call, and so every history of calls, runs to completion: the
    lookup in [hit] never fails. *)
Lemma step_total cfg o s :
  exists out s', step cfg o s = Ok (out, s').
Proof.
  destruct o as [k now|k now|k now nowc|k| |now]; cbn [step].
  - rewrite check_eq. by do 2 eexists.
  - unfold RateLimiter.getInfo. rewrite check_eq. by do 2 eexists.
  - rewrite hit_eq. cbv zeta. destruct (isLimited _); by do 2 eexists.
  - by do 2 eexists.
  - by do 2 eexists.
  - by do 2 eexists.
Qed.

Lemma run_total cfg ops : forall s,
  exists outs s', run cfg ops s = Ok (outs, s').
Proof.
  induction ops as [|o ops IH]; intros s; cbn [run].
  - by do 2 eexists.
  - destruct (step_total cfg o s) as (out & s1 & ->).
    cbn [mbind result_bind].
    destruct (IH s1) as (outs & s2 & ->).
    by do 2 eexists.
Qed.

Lemma run_app cfg ops1 ops2 s outs1 s1 outs2 s2 :
  run cfg ops1 s = Ok (outs1, s1) ->
  run cfg ops2 s1 = Ok (outs2, s2) ->
  run cfg (ops1 ++ ops2) s = Ok (outs1 ++ outs2, s2).
Proof.
  revert s outs1. induction ops1 as [|o ops1 IH]; intros s outs1 H1 H2.
  - cbn [run] in H1. injection H1 as <- <-. exact H2.
  - cbn [run app] in *.
    destruct (step_total cfg o s) as (out & t & E). rewrite E in *.
    cbn [mbind result_bind] in *.
    destruct (run_total cfg ops1 t) as (outs & t' & F). rewrite F in H1.
    cbn [mbind result_bind] in H1. injection H1 as <- <-.
    rewrite (IH t outs F H2). reflexivity.
Qed.

(** ** Timestamps never exceed the last access *)

Lemma store_wf_mono T T' s : T <= T' -> store_wf T s -> store_wf T' s.
Proof.
  intros HT Hwf k r Hk. destruct (Hwf k r Hk) as [Hts Hla].
  split; [exact Hts | lia].
Qed.

Lemma store_wf_insert T s k r :
  store_wf T s ->
  Forall (fun ts => ts <= lastAccess r) (timestamps r) -> lastAccess r <= T ->
  store_wf T (<[k := r]> s).
Proof.
  intros Hwf Hts Hla k' r' Hk'. destruct (decide (k = k')) as [->|Hne].
  - rewrite lookup_insert_eq in Hk'. injection Hk' as <-. by split.
  - rewrite lookup_insert_ne in Hk' by done. by eapply Hwf.
Qed.

Lemma store_wf_timestamps_of T s k :
  store_wf T s -> Forall (fun ts => ts <= T) (timestamps_of s k).
Proof.
  intros Hwf. unfold timestamps_of. destruct (s !! k) as [r|] eqn:Hk.
  - destruct (Hwf k r Hk) as [Hts Hla]. simpl.
    eapply Forall_impl; [|exact Hts]. simpl. intros ts Hle. lia.
  - constructor.
Qed.

Lemma Forall_filter_of {A} (Q P : A -> Prop) `{!forall x, Decision (P x)}
    (l : list A) :
  Forall Q l -> Forall Q (filter P l).
Proof.
  intros HQ. induction HQ as [|x l Hx Hl IH]; [constructor|].
  rewrite filter_cons. destruct (decide (P x)); [by constructor | exact IH].
Qed.

Lemma store_wf_live cfg T t s k :
  store_wf T s -> T <= t -> Forall (fun ts => ts <= t) (live cfg t s k).
Proof.
  intros Hwf Ht. unfold live. apply Forall_filter_of.
  eapply Forall_impl; [|apply (store_wf_timestamps_of T s k Hwf)].
  simpl. intros ts Hle. lia.
Qed.

(** A call made when the clock has not gone back keeps the invariant. *)
Lemma step_wf cfg T o s out s' :
  store_wf T s -> ascending T (op_readings o) ->
  step cfg o s = Ok (out, s') ->
  T <= clock_after_op T o /\ store_wf (clock_after_op T o) s'.
Proof.
  intros Hwf Hasc.
  destruct o as [k now|k now|k now nowc|k| |now];
    cbn [step op_readings clock_after_op List.last ascending] in *.
  - destruct Hasc as [Hnow _]. rewrite check_eq. intros [= <- <-].
    split; [exact Hnow|].
    apply store_wf_insert; cbn [timestamps lastAccess].
    + by eapply store_wf_mono.
    + by eapply store_wf_live.
    + lia.
  - destruct Hasc as [Hnow _]. unfold RateLimiter.getInfo.
    rewrite check_eq. intros [= <- <-].
    split; [exact Hnow|].
    apply store_wf_insert; cbn [timestamps lastAccess].
    + by eapply store_wf_mono.
    + by eapply store_wf_live.
    + lia.
  - destruct Hasc as (Hnow & Hnowc & _). rewrite hit_eq. cbv zeta.
    assert (HT : T <= nowc) by lia.
    destruct (isLimited _); cbn [mbind result_bind]; intros [= <- <-];
      (split; [exact HT|]);
      apply store_wf_insert; cbn [timestamps lastAccess]; try lia;
      try (by eapply store_wf_mono).
    + by eapply store_wf_live.
    + apply Forall_app. split; [by eapply store_wf_live|].
      constructor; [lia | constructor].
  - intros [= <- <-]. split; [lia|].
    intros k' r Hk'. unfold RateLimiter.reset in Hk'.
    apply lookup_delete_Some in Hk' as [_ Hk']. by eapply Hwf.
  - intros [= <- <-]. split; [lia|]. intros k' r Hk'.
    unfold RateLimiter.resetAll in Hk'. by rewrite lookup_empty in Hk'.
  - destruct Hasc as [Hnow _]. intros [= <- <-]. split; [exact Hnow|].
    intros k' r Hk'. rewrite cleanup_lookup in Hk'.
    destruct (s !! k') as [r'|] eqn:E; [|discriminate].
    case_decide; [discriminate|]. injection Hk' as <-.
    eapply store_wf_mono; [exact Hnow | exact Hwf | exact E].
Qed.

Lemma run_wf cfg ops : forall T s outs s',
  store_wf T s -> chronological T ops ->
  run cfg ops s = Ok (outs, s') ->
  T <= clock_after T ops /\ store_wf (clock_after T ops) s'.
Proof.
  induction ops as [|o ops IH]; intros T s outs s' Hwf Hchr Hrun.
  - cbn [run clock_after] in *. injection Hrun as <- <-. split; [lia | exact Hwf].
  - cbn [run clock_after chronological] in *. destruct Hchr as [Hasc Hchr].
    destruct (step_total cfg o s) as (out & t & E). rewrite E in Hrun.
    cbn [mbind result_bind] in Hrun.
    destruct (run_total cfg ops t) as (outs' & t' & F). rewrite F in Hrun.
    cbn [mbind result_bind] in Hrun. injection Hrun as <- <-.
    destruct (step_wf cfg T o s out t Hwf Hasc E) as [HT Hwf'].
    destruct (IH _ t outs' t' Hwf' Hchr F) as [HT' Hwf''].
    split; [lia | exact Hwf''].
Qed.

Lemma op_readings_ge T o :
  ascending T (op_readings o) ->
  Forall (fun t => T <= t) (op_readings o) /\ T <= clock_after_op T o.
Proof.
  destruct o as [k now|k now|k now nowc|k| |now];
    cbn [op_readings clock_after_op List.last ascending];
    intros Hasc; split; repeat constructor; lia.
Qed.

Lemma chronological_ge ops : forall T0 T,
  T0 <= T -> chronological T ops ->
  Forall (fun o => Forall (fun t => T0 <= t) (op_readings o)) ops.
Proof.
  induction ops as [|o ops IH]; intros T0 T HT Hchr; [constructor|].
  cbn [chronological] in Hchr. destruct Hchr as [Hasc Hchr].
  destruct (op_readings_ge T o Hasc) as [Hge Hclock].
  constructor.
  - eapply Forall_impl; [|exact Hge]. simpl. intros t Ht. lia.
  - apply (IH T0 (clock_after_op T o)); [lia | exact Hchr].
Qed.

Lemma chronological_app ops1 : forall T ops2,
  chronological T (ops1 ++ ops2) ->
  chronological T ops1 /\ chronological (clock_after T ops1) ops2.
Proof.
  induction ops1 as [|o ops1 IH]; intros T ops2 Hchr.
  - by split.
  - cbn [app chronological clock_after] in *. destruct Hchr as [Hasc Hchr].
    destruct (IH _ _ Hchr) as [H1 H2]. by repeat split.
Qed.

(** ** The sweep cannot be observed through [check] and [hit] (C10) *)

Lemma dead_at_filter cfg T r t :
  dead_at cfg T r -> T <= t ->
  filter (fun ts => ts > t - MergedConfig.windowMs cfg) (timestamps r) = [].
Proof.
  unfold dead_at. intros Hdead Ht.
  induction Hdead as [|ts l Hts Hl IH]; [done|].
  rewrite filter_cons. destruct (decide (ts > t - _)); [lia | exact IH].
Qed.

(** A record the sweep evicts at [T] holds no timestamp that a window ending
    at [T] or later could contain. *)
Lemma expired_dead cfg T' T s k r :
  store_wf T' s -> T' <= T -> s !! k = Some r -> expired cfg T r ->
  dead_at cfg T r.
Proof.
  intros Hwf HT Hk Hexp. destruct (Hwf k r Hk) as [Hts Hla].
  unfold dead_at, expired in *.
  eapply Forall_impl; [|exact Hts]. simpl. intros ts Hle. lia.
Qed.

Lemma cleanup_sim cfg T' T s :
  store_wf T' s -> T' <= T ->
  sim (dead_at cfg T) (RateLimiter.cleanup cfg T s) s.
Proof.
  intros Hwf HT k. rewrite cleanup_lookup.
  destruct (s !! k) as [r|] eqn:Hk; [|by left].
  case_decide as Hexp; [|by left].
  right. split; [done|]. exists r. split; [done|].
  by eapply expired_dead.
Qed.

(** C10 as stated fails when the clock steps back: a [check] taken at 850
    after a hit at 1000 sets the last access below a timestamp it keeps, the
    sweep at 1060 evicts the record while the timestamp 1000 is still inside
    the window, and the second of two later hits is admitted with the sweep
    and limited without it (limit 2, window 100 ms). *)
Lemma sweep_after_clock_step_back_counterexample :
  let cfg := merge testStrict in
  let before := [OpHit "k" 1000 1000; OpCheck "k" 850] in
  let after := [OpHit "k" 1070 1070; OpHit "k" 1071 1071] in
  snd <$> run cfg before ∅
    = Ok ({["k" := mkRecord [1000] 850]} : gmap string RateLimitRecord) /\
  fst <$> run cfg (before ++ OpCleanup 1060 :: after) ∅
    = Ok [Some (mkInfo 2 1 1100 false); Some (mkInfo 2 1 1100 false); None;
          Some (mkInfo 2 1 1170 false); Some (mkInfo 2 0 1170 false)] /\
  fst <$> run cfg (before ++ after) ∅
    = Ok [Some (mkInfo 2 1 1100 false); Some (mkInfo 2 1 1100 false);
          Some (mkInfo 2 0 1100 false); Some (mkInfo 2 0 1100 true)].
Proof. vm_compute. repeat split. Qed.

(** C10, amended: evicting idle records is harmless as long as the clock
    never goes back.  Take a store in which no timestamp exceeds the last
    access of its record and no last access exceeds the clock (the empty
    store of a new limiter is one), and any history of calls during which
    the clock never goes back, with a sweep at [T] somewhere in it.  Then,
    in the store [s] the sweep finds, no timestamp exceeds the last access
    of its record; a record whose last access predates [T - 2 * windowMs]
    has no timestamp inside any window that ends at [T] or later; and the
    history returns exactly the values it returns with the sweep left out:
    every [check], [getInfo] and [hit] after the sweep gives the same
    [RateLimitInfo] as if the record had been kept and pruned by [check]. *)
Theorem sweep_is_unobservable (cfg : MergedConfig.t) (T0 T : Z)
    (s0 : gmap string RateLimitRecord) (before after : list op) :
  store_wf T0 s0 ->
  chronological T0 (before ++ OpCleanup T :: after) ->
  exists outs1 outs2 s sa sb,
    run cfg before s0 = Ok (outs1, s) /\
    (forall k r, s !! k = Some r ->
       Forall (fun ts => ts <= lastAccess r) (timestamps r)) /\
    (forall k r t, s !! k = Some r -> expired cfg T r -> T <= t ->
       live cfg t s k = []) /\
    run cfg (before ++ OpCleanup T :: after) s0
      = Ok (outs1 ++ None :: outs2, sa) /\
    run cfg (before ++ after) s0 = Ok (outs1 ++ outs2, sb).
Proof.
  intros Hwf0 Hchr.
  apply chronological_app in Hchr as [Hbefore Hrest].
  cbn [chronological op_readings ascending clock_after_op List.last] in Hrest.
  destruct Hrest as [[HT _] Hafter].
  destruct (run_total cfg before s0) as (outs1 & s & Hrun1).
  destruct (run_wf cfg before T0 s0 outs1 s Hwf0 Hbefore Hrun1) as [_ Hwf].
  destruct (sim_run cfg (dead_at cfg T) (fun t => T <= t)
              (dead_at_filter cfg T) after
              (RateLimiter.cleanup cfg T s) s)
    as (outs2 & sa & sb & Hrun_swept & Hrun_kept & _).
  { by eapply cleanup_sim. }
  { by apply (chronological_ge after T T). }
  exists outs1, outs2, s, sa, sb. repeat split.
  - exact Hrun1.
  - intros k r Hk. by destruct (Hwf k r Hk).
  - intros k r t Hk Hexp Ht. unfold live, timestamps_of. rewrite Hk. simpl.
    apply (dead_at_filter cfg T); [|exact Ht]. by eapply expired_dead.
  - eapply run_app; [exact Hrun1|]. cbn [run step].
    cbn [mbind result_bind]. rewrite Hrun_swept. reflexivity.
  - eapply run_app; [exact Hrun1 | exact Hrun_kept].
Qed.

(** A key hit once at 1000 ms, idle until the sweep at 1300 ms (window
    100 ms), then hit and checked again. *)
Lemma sweep_is_unobservable_witness :
  let cfg := merge testStrict in
  let before := [OpHit "k" 1000 1000] in
  let after := [OpHit "k" 1300 1301; OpCheck "k" 1310] in
  exists outs1 outs2 s sa sb,
    run cfg before ∅ = Ok (outs1, s) /\
    (forall k r, s !! k = Some r ->
       Forall (fun ts => ts <= lastAccess r) (timestamps r)) /\
    (forall k r t, s !! k = Some r -> expired cfg 1300 r -> 1300 <= t ->
       live cfg t s k = []) /\
    run cfg (before ++ OpCleanup 1300 :: after) ∅
      = Ok (outs1 ++ None :: outs2, sa) /\
    run cfg (before ++ after) ∅ = Ok (outs1 ++ outs2, sb).
Proof.
  cbv zeta.
  apply (sweep_is_unobservable (merge testStrict) 0 1300 ∅
           [OpHit "k" 1000 1000] [OpHit "k" 1300 1301; OpCheck "k" 1310]).
  - intros k r Hk. by rewrite lookup_empty in Hk.
  - cbn. lia.
Defined.

(** ** The reset instant and the oldest timestamp (C5) *)

Lemma StronglySorted_filter {A} (R : A -> A -> Prop) (P : A -> Prop)
    `{!forall x, Decision (P x)} (l : list A) :
  StronglySorted R l -> StronglySorted R (filter P l).
Proof.
  intros Hsorted. induction Hsorted as [|x l Hl IH Hx]; [constructor|].
  rewrite filter_cons. destruct (decide (P x)); [|exact IH].
  constructor; [exact IH|]. by apply Forall_filter_of.
Qed.

Lemma oldest_is_member l m : oldest l = Some m -> In m l.
Proof.
  revert m. induction l as [|x l IH]; intros m; [discriminate|].
  cbn [oldest foldr]. fold (oldest l).
  destruct (oldest l) as [m'|]; intros [= <-]; [|by left].
  destruct (Z.min_spec x m') as [[_ ->]|[_ ->]]; [by left|].
  right. by apply IH.
Qed.

Lemma oldest_of_sorted x l :
  StronglySorted Z.le (x :: l) -> oldest (x :: l) = Some x.
Proof.
  intros Hsorted. apply StronglySorted_inv in Hsorted as [_ Hx].
  cbn [oldest foldr]. fold (oldest l).
  destruct (oldest l) as [m|] eqn:Hm; [|reflexivity].
  apply oldest_is_member in Hm. rewrite Forall_forall in Hx.
  specialize (Hx m Hm). f_equal. lia.
Qed.

(** C5 as stated fails when the clock steps back between two hits: the
    record then holds [1000; 900], and [check] reports the first surviving
    timestamp plus the window, 1100, while the oldest surviving timestamp,
    900, leaves the window at 1000 (limit 2, window 100 ms). *)
Lemma check_resetAt_unsorted_counterexample :
  let cfg := merge testStrict in
  let s : gmap string RateLimitRecord := {["k" := mkRecord [1000; 900] 900]} in
  snd <$> run cfg [OpHit "k" 1000 1000; OpHit "k" 900 900] ∅ = Ok s /\
  live cfg 950 s "k" = [1000; 900] /\
  oldest (live cfg 950 s "k") = Some 900 /\
  resetAt (fst (RateLimiter.check cfg 950 "k" s)) = 1100 /\
  resetAt (fst (RateLimiter.check cfg 950 "k" s))
    <> 900 + MergedConfig.windowMs cfg.
Proof. vm_compute. repeat split; try reflexivity. discriminate. Qed.

(** C5, amended.  For every key and every store in which the timestamps of
    the key are in the order of a clock that did not go back and none of
    them is the epoch millisecond 0, the reset instant [check] reports is
    the oldest timestamp that survives the pruning plus the window, and
    [now + windowMs] when none survives. *)
Theorem check_resetAt_is_oldest_plus_window (cfg : MergedConfig.t) (now : Z)
    (key : string) (s : gmap string RateLimitRecord) :
  StronglySorted Z.le (timestamps_of s key) ->
  Forall (fun ts => ts <> 0) (timestamps_of s key) ->
  resetAt (fst (RateLimiter.check cfg now key s)) =
    match oldest (live cfg now s key) with
    | Some oldestTimestamp => oldestTimestamp + MergedConfig.windowMs cfg
    | None => now + MergedConfig.windowMs cfg
    end.
Proof.
  intros Hsorted Hnonzero. rewrite check_resetAt.
  assert (Hsorted' : StronglySorted Z.le (live cfg now s key))
    by (by apply StronglySorted_filter).
  assert (Hnonzero' : Forall (fun ts => ts <> 0) (live cfg now s key))
    by (by apply Forall_filter_of).
  destruct (live cfg now s key) as [|t l]; [reflexivity|].
  rewrite (oldest_of_sorted t l Hsorted'). cbn [head].
  apply Forall_cons_iff in Hnonzero' as [Ht _].
  by destruct (decide (t = 0)).
Qed.

(** Two hits 60 ms apart, checked 10 ms after the second. *)
Lemma check_resetAt_is_oldest_plus_window_witness :
  let cfg := merge testStrict in
  let s : gmap string RateLimitRecord :=
    {["k" := mkRecord [1000; 1060] 1060]} in
  resetAt (fst (RateLimiter.check cfg 1070 "k" s)) =
    match oldest (live cfg 1070 s "k") with
    | Some oldestTimestamp => oldestTimestamp + MergedConfig.windowMs cfg
    | None => 1070 + MergedConfig.windowMs cfg
    end.
Proof.
  cbv zeta.
  apply (check_resetAt_is_oldest_plus_window (merge testStrict) 1070 "k"
           {["k" := mkRecord [1000; 1060] 1060]}).
  - unfold timestamps_of. rewrite lookup_singleton_eq. cbn [default timestamps].
    repeat constructor; lia.
  - unfold timestamps_of. rewrite lookup_singleton_eq. cbn [default timestamps].
    repeat constructor; lia.
Defined.

(** The stores a limiter reaches while the clock never goes back have their
    timestamps in order, none before the first reading of the clock: these
    are the stores the property above is about, for a clock that starts
    after the epoch. *)
Lemma store_sorted_insert lo s k r :
  store_sorted lo s ->
  StronglySorted Z.le (timestamps r) ->
  Forall (fun ts => lo <= ts) (timestamps r) ->
  store_sorted lo (<[k := r]> s).
Proof.
  intros Hs Hr1 Hr2 k' r' Hk'. destruct (decide (k = k')) as [->|Hne].
  - rewrite lookup_insert_eq in Hk'. by injection Hk' as <-.
  - rewrite lookup_insert_ne in Hk' by done. by eapply Hs.
Qed.

Lemma store_sorted_live cfg lo now s k :
  store_sorted lo s ->
  StronglySorted Z.le (live cfg now s k) /\
  Forall (fun ts => lo <= ts) (live cfg now s k).
Proof.
  intros Hs. unfold live, timestamps_of.
  destruct (s !! k) as [r|] eqn:Hk; cbn [default timestamps].
  - destruct (Hs k r Hk) as [H1 H2].
    split; [by apply StronglySorted_filter | by apply Forall_filter_of].
  - split; constructor.
Qed.

Lemma StronglySorted_snoc (l : list Z) (x : Z) :
  StronglySorted Z.le l -> Forall (fun ts => ts <= x) l ->
  StronglySorted Z.le (l ++ [x]).
Proof.
  intros Hsorted. induction Hsorted as [|y l Hl IH Hy]; intros Hle.
  - repeat constructor.
  - apply Forall_cons_iff in Hle as [Hyx Hle]. cbn [app].
    constructor; [by apply IH|].
    apply Forall_app. split; [exact Hy|]. by constructor.
Qed.

Lemma step_sorted cfg lo T o s out s' :
  lo <= T -> store_wf T s -> store_sorted lo s ->
  ascending T (op_readings o) ->
  step cfg o s = Ok (out, s') ->
  store_sorted lo s'.
Proof.
  intros Hlo Hwf Hs Hasc.
  destruct o as [k now|k now|k now nowc|k| |now];
    cbn [step op_readings ascending] in *.
  - rewrite check_eq. intros [= <- <-].
    destruct (store_sorted_live cfg lo now s k Hs).
    by apply store_sorted_insert.
  - unfold RateLimiter.getInfo. rewrite check_eq. intros [= <- <-].
    destruct (store_sorted_live cfg lo now s k Hs).
    by apply store_sorted_insert.
  - destruct Hasc as (Hnow & Hnowc & _). rewrite hit_eq. cbv zeta.
    destruct (store_sorted_live cfg lo nowc s k Hs) as [H1 H2].
    destruct (isLimited (RateLimiter.info_of _ _ _));
      cbn [mbind result_bind]; intros [= <- <-];
      apply store_sorted_insert; cbn [timestamps]; try done.
    + apply StronglySorted_snoc; [exact H1|].
      pose proof (store_wf_timestamps_of T s k Hwf) as Hle.
      unfold live. apply Forall_filter_of.
      eapply Forall_impl; [|exact Hle]. simpl. intros ts Hts. lia.
    + apply Forall_app. split; [exact H2|]. constructor; [lia|constructor].
  - intros [= <- <-] k' r Hk'. unfold RateLimiter.reset in Hk'.
    apply lookup_delete_Some in Hk' as [_ Hk']. by eapply Hs.
  - intros [= <- <-] k' r Hk'. unfold RateLimiter.resetAll in Hk'.
    by rewrite lookup_empty in Hk'.
  - intros [= <- <-] k' r Hk'. rewrite cleanup_lookup in Hk'.
    destruct (s !! k') as [r'|] eqn:E; [|discriminate].
    case_decide; [discriminate|]. injection Hk' as <-. by eapply Hs.
Qed.

Lemma chronological_history_keeps_order cfg ops : forall lo T s outs s',
  lo <= T -> store_wf T s -> store_sorted lo s ->
  chronological T ops ->
  run cfg ops s = Ok (outs, s') ->
  store_sorted lo s'.
Proof.
  induction ops as [|o ops IH]; intros lo T s outs s' Hlo Hwf Hs Hchr Hrun.
  - cbn [run] in Hrun. by injection Hrun as <- <-.
  - cbn [run chronological] in *. destruct Hchr as [Hasc Hchr].
    destruct (step_total cfg o s) as (out & t & E). rewrite E in Hrun.
    cbn [mbind result_bind] in Hrun.
    destruct (run_total cfg ops t) as (outs' & t' & F). rewrite F in Hrun.
    cbn [mbind result_bind] in Hrun. injection Hrun as <- <-.
    destruct (step_wf cfg T o s out t Hwf Hasc E) as [HT Hwf'].
    eapply (IH lo (clock_after_op T o) t outs' t'); try done; [lia|].
    by eapply step_sorted.
Qed.

(** ** What [check] and [getInfo] leave behind (C3) *)

(** C3 as stated fails: [getInfo] on a key never seen before creates a
    record for it, and the number of tracked keys, which [size] reports,
    goes from 0 to 1. *)
Lemma getInfo_never_seen_key_counterexample :
  let s : gmap string RateLimitRecord := ∅ in
  let s' := snd (RateLimiter.getInfo (merge testStrict) 1000 "k" s) in
  s !! "k" = None /\
  RateLimiter.size s = 0%nat /\
  RateLimiter.size s' = 1%nat /\
  s' <> s.
Proof.
  cbv zeta. repeat split.
  intros E. apply (f_equal RateLimiter.size) in E. vm_compute in E.
  discriminate.
Qed.

(** An empty record has no timestamp inside any window, whatever the clock
    reads. *)
Lemma empty_record_filter cfg (r : RateLimitRecord) (t : Z) :
  timestamps r = [] -> True ->
  filter (fun ts => ts > t - MergedConfig.windowMs cfg) (timestamps r) = [].
Proof. intros -> _. reflexivity. Qed.

(** C3, amended.  [check(key)] and its alias [getInfo(key)] never add a
    timestamp and touch no other key: afterwards the key holds exactly those
    of its former timestamps that are inside the window, with the last
    access set to the reading of the clock, and every other key has the
    record it had.  On a key never seen before they do create a record, an
    empty one, so [size] grows by one; but every later history of calls
    returns the same values as if the call had not been made. *)
Theorem getInfo_only_prunes (cfg : MergedConfig.t) (now : Z) (key : string)
    (s : gmap string RateLimitRecord) :
  let s' := snd (RateLimiter.getInfo cfg now key s) in
  RateLimiter.getInfo cfg now key s = RateLimiter.check cfg now key s /\
  s' !! key =
    Some (mkRecord
            (filter (fun ts => ts > now - MergedConfig.windowMs cfg)
                    (timestamps_of s key))
            now) /\
  (forall k, k <> key -> s' !! k = s !! k) /\
  (s !! key = None ->
     s' = <[key := mkRecord [] now]> s /\
     RateLimiter.size s' = S (RateLimiter.size s) /\
     forall ops, fst <$> run cfg ops s' = fst <$> run cfg ops s).
Proof.
  cbv zeta. unfold RateLimiter.getInfo. rewrite check_eq. cbn [snd].
  split; [reflexivity|]. split; [apply lookup_insert_eq|].
  split; [intros k Hne; by rewrite lookup_insert_ne|].
  intros Hfresh.
  assert (Hlive : live cfg now s key = []).
  { unfold live, timestamps_of. by rewrite Hfresh. }
  rewrite Hlive. split; [reflexivity|]. split.
  - unfold RateLimiter.size. by apply map_size_insert_None.
  - intros ops.
    destruct (sim_run cfg (fun r => timestamps r = []) (fun _ => True)
                (empty_record_filter cfg) ops
                s (<[key := mkRecord [] now]> s))
      as (outs & s1 & s2 & E1 & E2 & _).
    + intros k. destruct (decide (key = k)) as [<-|Hne].
      * right. split; [exact Hfresh|]. eexists.
        split; [apply lookup_insert_eq | reflexivity].
      * left. by rewrite lookup_insert_ne.
    + induction ops as [|o ops IH]; constructor; [|exact IH].
      induction (op_readings o); by constructor.
    + by rewrite E1, E2.
Qed.

(** [getInfo] on a fresh limiter of the strict fixture. *)
Lemma getInfo_only_prunes_witness :
  let cfg := merge testStrict in
  let s : gmap string RateLimitRecord := ∅ in
  let s' := snd (RateLimiter.getInfo cfg 1000 "k" s) in
  s !! "k" = None /\
  s' = <["k" := mkRecord [] 1000]> s /\
  RateLimiter.size s' = S (RateLimiter.size s) /\
  forall ops, fst <$> run cfg ops s' = fst <$> run cfg ops s.
Proof.
  cbv zeta.
  assert (Hfresh : (∅ : gmap string RateLimitRecord) !! "k" = None)
    by reflexivity.
  split; [exact Hfresh|].
  exact (proj2 (proj2 (proj2
           (getInfo_only_prunes (merge testStrict) 1000 "k" ∅))) Hfresh).
Defined.

(** ** Presets (C8) *)

Lemma presets_are_their_literals p :
  RATE_LIMIT_PRESETS p =
  RateLimitConfig.mk (Some (fst (preset_literals p)))
    (Some (snd (preset_literals p))) None None None None None None.
Proof. destruct p; reflexivity. Qed.

Lemma spread_preset p overrides :
  RateLimitConfig.spread (RATE_LIMIT_PRESETS p) overrides
  = literal_config p overrides.
Proof.
  rewrite presets_are_their_literals.
  destruct overrides as [l w kg sk olr al hd msg].
  unfold RateLimitConfig.spread, literal_config, RateLimitConfig.later.
  cbn [RateLimitConfig.limit RateLimitConfig.windowMs
       RateLimitConfig.keyGenerator RateLimitConfig.skip
       RateLimitConfig.onLimitReached RateLimitConfig.auditLog
       RateLimitConfig.headers RateLimitConfig.message].
  destruct l, w, kg, sk, olr, al, hd, msg; reflexivity.
Qed.

(** C8. Selecting a preset is passing its literal values: for every preset
    name and every overrides, [createRateLimitFromPreset] builds the very
    middleware [createRateLimitMiddleware] builds from the literal limit and
    window of the preset, an override of either taking precedence; so on
    every sequence of requests, with the same readings of the clock, both
    perform the same effects (the same admissions and rejections, the same
    headers and bodies, the same [RateLimitInfo] handed to a handler). *)
Theorem preset_is_its_literal_values (p : preset)
    (overrides : RateLimitConfig.t) (reqs : list (Env * Request)) :
  createRateLimitFromPreset p overrides
    = createRateLimitMiddleware (literal_config p overrides) /\
  serve (createRateLimitFromPreset p overrides) reqs
    = serve (createRateLimitMiddleware (literal_config p overrides)) reqs.
Proof.
  unfold createRateLimitFromPreset. rewrite spread_preset. by split.
Qed.

(** The suite's "should allow overriding preset values": the strict preset
    with the limit overridden to 5 announces the limit 5. *)
Example preset_override_fixture :
  let overrides :=
    RateLimitConfig.mk (Some 5) None None None None None None None in
  let req := mkRequest (Some "192.168.1.100") (Some "192.168.1.100")
               "/api/test" "GET" ∅ in
  let env := mkEnv 1000 1000 1000 1000 "id" in
  map (fun effects => headers (respond effects createMockResponse)
                        !! "X-RateLimit-Limit")
    <$> serve (createRateLimitFromPreset strict overrides) [(env, req)]
  = Ok [Some 5].
Proof. vm_compute. reflexivity. Qed.

(** ** Headers and the default rejection (C9) *)

Lemma ceil_div_1000_spec (ms : Z) :
  1000 * (ceil_div_1000 ms - 1) < ms <= 1000 * ceil_div_1000 ms.
Proof.
  unfold ceil_div_1000.
  pose proof (Z.div_mod (- ms) 1000 ltac:(lia)) as Hdm.
  pose proof (Z.mod_pos_bound (- ms) 1000 ltac:(lia)) as Hmod.
  lia.
Qed.

Lemma not_elem_of_effects (e : effect) (effects : list effect) :
  Forall (fun e' => e' <> e) effects -> e ∉ effects.
Proof.
  intros Hall Hin. rewrite Forall_forall in Hall.
  apply list_elem_of_In in Hin. by apply (Hall e Hin).
Qed.

(** C9 as stated fails on a request the skip predicate exempts: with
    headers enabled the middleware calls [next] and writes no header at all,
    so the response carries no [X-RateLimit-Limit]. *)
Lemma skipped_request_carries_no_headers_counterexample :
  let config :=
    RateLimitConfig.mk (Some 1) (Some 100) None
      (Some (fun req => bool_decide (path req = "/health")))
      None None None None in
  let req := mkRequest (Some "192.168.1.100") (Some "192.168.1.100")
               "/health" "GET" ∅ in
  let env := mkEnv 1000 1000 1000 1000 "id" in
  MergedConfig.headers (merge config) = true /\
  middleware config env req ∅ = Ok ([Next], ∅) /\
  headers (respond [Next] createMockResponse) !! "X-RateLimit-Limit" = None /\
  headers (respond [Next] createMockResponse) !! "X-RateLimit-Remaining" = None /\
  headers (respond [Next] createMockResponse) !! "X-RateLimit-Reset" = None.
Proof. vm_compute. repeat split. Qed.

(** C9, amended.  For every request the middleware does not skip, with
    headers enabled, the writes of the middleware leave on the response
    [X-RateLimit-Limit] (the configured limit), [X-RateLimit-Remaining] and
    [X-RateLimit-Reset]; the last is the reset instant, which [resetAt]
    gives in milliseconds, in whole seconds rounded up: the least [reset]
    with [resetAt <= 1000 * reset].  When the hit is limited the middleware
    also sets [Retry-After] to the delay [resetAt - now] in whole seconds
    rounded up and, unless a custom handler is configured, answers with
    status 429 and the body
    [{error: "RATE_LIMIT_EXCEEDED", message, retryAfter}], with the same
    delay.  When the hit is admitted it never sets [Retry-After], leaves
    status and body alone and calls [next]. *)
Theorem middleware_headers (config : RateLimitConfig.t) (env : Env)
    (req : Request) (s : gmap string RateLimitRecord) :
  skips config req = false ->
  MergedConfig.headers (merge config) = true ->
  exists info s' effects reset retryAfter,
    RateLimiter.hit (merge config) (hitNow env) (checkNow env)
      (MergedConfig.keyGenerator (merge config) req) s = Ok (info, s') /\
    middleware config env req s = Ok (effects, s') /\
    limit info = MergedConfig.limit (merge config) /\
    1000 * (reset - 1) < resetAt info <= 1000 * reset /\
    1000 * (retryAfter - 1) < resetAt info - retryNow env
                            <= 1000 * retryAfter /\
    forall res : Response,
      let res' := respond effects res in
      headers res' !! "X-RateLimit-Limit" = Some (limit info) /\
      headers res' !! "X-RateLimit-Remaining" = Some (remaining info) /\
      headers res' !! "X-RateLimit-Reset" = Some reset /\
      (if isLimited info then
         SetHeader "Retry-After" retryAfter ∈ effects /\
         headers res' !! "Retry-After" = Some retryAfter /\
         (RateLimitConfig.onLimitReached config = None ->
            (Next ∉ effects) /\
            statusCode res' = 429 /\
            body res' = Some (mkBody "RATE_LIMIT_EXCEEDED"
                                (MergedConfig.message (merge config))
                                retryAfter))
       else
         (forall v, SetHeader "Retry-After" v ∉ effects) /\
         headers res' !! "Retry-After" = headers res !! "Retry-After" /\
         statusCode res' = statusCode res /\
         body res' = body res /\
         Next ∈ effects).
Proof.
  intros Hskip Hheaders. unfold middleware. rewrite Hskip, Hheaders.
  destruct (step_total (merge config)
              (OpHit (MergedConfig.keyGenerator (merge config) req)
                     (hitNow env) (checkNow env)) s) as (out & s' & Hstep).
  cbn [step] in Hstep.
  destruct (RateLimiter.hit _ _ _ _ s) as [[info s'']|e] eqn:Hhit;
    cbn [mbind result_bind] in Hstep; [|discriminate].
  injection Hstep as _ <-. cbn [mbind result_bind].
  assert (Hlimit : limit info = MergedConfig.limit (merge config)).
  { revert Hhit. rewrite hit_eq. cbv zeta.
    by destruct (isLimited (RateLimiter.info_of _ _ _)); intros [= <- <-]. }
  exists info, s''.
  destruct (isLimited info) eqn:Hlim.
  - destruct (RateLimitConfig.auditLog config) as [sink|],
             (RateLimitConfig.onLimitReached config) as [handler|];
      eexists; exists (ceil_div_1000 (resetAt info)), (retryAfterOf env info);
      (split; [reflexivity|]); (split; [reflexivity|]);
      (split; [exact Hlimit|]);
      (split; [apply ceil_div_1000_spec|]);
      (split; [apply ceil_div_1000_spec|]);
      intros res; cbv zeta; unfold rateLimitHeaders;
      cbn [respond foldl write app headers statusCode body];
      repeat split; try (intros; discriminate);
      try (by simplify_map_eq);
      try (apply list_elem_of_In; cbn; tauto);
      try (apply not_elem_of_effects; repeat constructor; discriminate).
  - eexists. exists (ceil_div_1000 (resetAt info)), (retryAfterOf env info).
    split; [reflexivity|]. split; [reflexivity|].
    split; [exact Hlimit|].
    split; [apply ceil_div_1000_spec|].
    split; [apply ceil_div_1000_spec|].
    intros res. cbv zeta. unfold rateLimitHeaders.
    cbn [respond foldl write app headers statusCode body].
    repeat split; try (by simplify_map_eq).
    + intros v. apply not_elem_of_effects. repeat constructor; discriminate.
    + apply list_elem_of_In. cbn. tauto.
Qed.

(** The second request of one client under the single-request fixture: the
    first was admitted at 1000 ms. *)
Lemma middleware_headers_witness :
  let config := testSingle in
  let env := mkEnv 1010 1010 1011 1012 "id" in
  let req := mkRequest (Some "192.168.1.100") (Some "192.168.1.100")
               "/api/test" "GET" ∅ in
  let s : gmap string RateLimitRecord :=
    {["192.168.1.100" := mkRecord [1000] 1000]} in
  exists info s' effects reset retryAfter,
    RateLimiter.hit (merge config) (hitNow env) (checkNow env)
      (MergedConfig.keyGenerator (merge config) req) s = Ok (info, s') /\
    middleware config env req s = Ok (effects, s') /\
    limit info = MergedConfig.limit (merge config) /\
    1000 * (reset - 1) < resetAt info <= 1000 * reset /\
    1000 * (retryAfter - 1) < resetAt info - retryNow env
                            <= 1000 * retryAfter /\
    forall res : Response,
      let res' := respond effects res in
      headers res' !! "X-RateLimit-Limit" = Some (limit info) /\
      headers res' !! "X-RateLimit-Remaining" = Some (remaining info) /\
      headers res' !! "X-RateLimit-Reset" = Some reset /\
      (if isLimited info then
         SetHeader "Retry-After" retryAfter ∈ effects /\
         headers res' !! "Retry-After" = Some retryAfter /\
         (RateLimitConfig.onLimitReached config = None ->
            (Next ∉ effects) /\
            statusCode res' = 429 /\
            body res' = Some (mkBody "RATE_LIMIT_EXCEEDED"
                                (MergedConfig.message (merge config))
                                retryAfter))
       else
         (forall v, SetHeader "Retry-After" v ∉ effects) /\
         headers res' !! "Retry-After" = headers res !! "Retry-After" /\
         statusCode res' = statusCode res /\
         body res' = body res /\
         Next ∈ effects).
Proof.
  cbv zeta.
  apply (middleware_headers testSingle (mkEnv 1010 1010 1011 1012 "id")
           (mkRequest (Some "192.168.1.100") (Some "192.168.1.100")
              "/api/test" "GET" ∅)
           {["192.168.1.100" := mkRecord [1000] 1000]}).
  - reflexivity.
  - reflexivity.
Defined.

(** The suite's "should block requests over limit", on the mock response:
    two requests of one client under the single-request fixture. *)
Example middleware_rejection_fixture :
  let req := mkRequest (Some "192.168.1.100") (Some "192.168.1.100")
               "/api/test" "GET" ∅ in
  let reqs := [(mkEnv 1000 1000 1000 1000 "a", req);
               (mkEnv 1010 1010 1011 1012 "b", req)] in
  map (fun effects => respond effects createMockResponse)
    <$> serve (createRateLimitMiddleware testSingle) reqs
  = Ok [ mkResponse 200
           {[ "X-RateLimit-Limit" := 1; "X-RateLimit-Remaining" := 0;
              "X-RateLimit-Reset" := 2 ]}
           None;
         mkResponse 429
           {[ "X-RateLimit-Limit" := 1; "X-RateLimit-Remaining" := 0;
              "X-RateLimit-Reset" := 2; "Retry-After" := 1 ]}
           (Some (mkBody "RATE_LIMIT_EXCEEDED"
                    "Too many requests, please try again later." 1)) ].
Proof. vm_compute. reflexivity. Qed.

(** ** The last slot, sequentially (C4)

    [hit] is a synchronous method: between its read of the record and its
    write no other call of the same limiter runs.  That is a property of the
    scheduling of the host, which this embedding takes as given by making
    [hit] a function of the store.  What can be said here is the sequential
    consequence: of two hits on a key with one slot left, made one after the
    other while no timestamp leaves the window, the first is admitted and
    the second is not. *)
Lemma last_slot_taken_once cfg key s t1 tc1 t2 tc2 i1 s1 i2 s2 :
  Z.of_nat (length (live cfg tc1 s key)) = MergedConfig.limit cfg - 1 ->
  RateLimiter.hit cfg t1 tc1 key s = Ok (i1, s1) ->
  live cfg tc2 s1 key = timestamps_of s1 key ->
  RateLimiter.hit cfg t2 tc2 key s1 = Ok (i2, s2) ->
  isLimited i1 = false /\ isLimited i2 = true.
Proof.
  intros Hslot. rewrite !hit_eq. cbv zeta.
  destruct (isLimited _) eqn:Hlim1; intros [= <- <-].
  { apply isLimited_iff in Hlim1. cbn [timestamps] in Hlim1. lia. }
  rewrite timestamps_of_insert. cbn [timestamps]. intros ->.
  destruct (isLimited (RateLimiter.info_of cfg tc2 _)) eqn:Hlim2;
    intros [= <- <-]; [done|].
  apply isLimited_false_iff in Hlim2. cbn [timestamps] in Hlim2.
  rewrite length_app in Hlim2. simpl in Hlim2. lia.
Qed.

(** * Further properties of the limiter *)

(** ** Keys without a record, [reset] and [resetAll] *)

Lemma info_of_empty cfg now la :
  RateLimiter.info_of cfg now (mkRecord [] la) = fullAllowance cfg now.
Proof.
  unfold RateLimiter.info_of, fullAllowance. cbn [timestamps length head].
  f_equal; [lia|]. apply bool_decide_ext. lia.
Qed.

Lemma check_without_timestamps cfg now key s :
  timestamps_of s key = [] ->
  fst (RateLimiter.check cfg now key s) = fullAllowance cfg now.
Proof.
  intros Hts. rewrite check_eq. cbn [fst]. unfold live. rewrite Hts.
  apply info_of_empty.
Qed.

(** [reset(key)] drops only that key: its record is gone, every other key
    keeps its record, and the next [check] of the key reports the whole
    allowance (remaining [max 0 limit], reset one window ahead), whatever
    the key held before; with a positive limit the next [hit] is admitted. *)
Theorem reset_restores_full_allowance (cfg : MergedConfig.t) (key : string)
    (s : gmap string RateLimitRecord) (now nowc : Z) :
  let s' := RateLimiter.reset key s in
  s' !! key = None /\
  (forall k, k <> key -> s' !! k = s !! k) /\
  fst (RateLimiter.check cfg now key s') = fullAllowance cfg now /\
  fst <$> RateLimiter.hit cfg now nowc key s' =
    Ok (if bool_decide (MergedConfig.limit cfg <= 0)
        then fullAllowance cfg nowc
        else mkInfo (MergedConfig.limit cfg) (MergedConfig.limit cfg - 1)
                    (nowc + MergedConfig.windowMs cfg) false).
Proof.
  cbv zeta. unfold RateLimiter.reset.
  assert (Hts : timestamps_of (delete key s) key = []).
  { unfold timestamps_of. by rewrite lookup_delete_eq. }
  split; [apply lookup_delete_eq|].
  split; [intros k Hne; by apply lookup_delete_ne|].
  split; [by apply check_without_timestamps|].
  rewrite hit_eq. cbv zeta. unfold live. rewrite Hts. cbn [filter list_filter].
  rewrite info_of_empty. unfold fullAllowance at 1. cbn [isLimited].
  case_bool_decide as HL; cbn [fmap result_fmap fst].
  - reflexivity.
  - unfold fullAllowance. cbn [limit remaining resetAt]. do 2 f_equal. lia.
Qed.

(** [resetAll()] leaves no tracked key, and every key then has the whole
    allowance. *)
Theorem resetAll_restores_everything (cfg : MergedConfig.t)
    (s : gmap string RateLimitRecord) (key : string) (now : Z) :
  let s' := RateLimiter.resetAll s in
  RateLimiter.size s' = 0%nat /\
  s' !! key = None /\
  fst (RateLimiter.check cfg now key s') = fullAllowance cfg now.
Proof.
  cbv zeta. unfold RateLimiter.resetAll, RateLimiter.size.
  split; [apply map_size_empty|]. split; [apply lookup_empty|].
  apply check_without_timestamps. unfold timestamps_of.
  by rewrite lookup_empty.
Qed.

(** ** [size] *)

(** [check], [getInfo] and [hit] start tracking the key they are given if it
    was not tracked, and never start or stop tracking any other: [size]
    grows by one for a new key and stays as it is for a tracked one, whether
    or not the hit is admitted. *)
Theorem size_counts_new_keys (cfg : MergedConfig.t) (now nowc : Z)
    (key : string) (s : gmap string RateLimitRecord) :
  let grown := match s !! key with
               | Some _ => RateLimiter.size s
               | None => S (RateLimiter.size s)
               end in
  RateLimiter.size (snd (RateLimiter.check cfg nowc key s)) = grown /\
  RateLimiter.size (snd (RateLimiter.getInfo cfg nowc key s)) = grown /\
  exists info s',
    RateLimiter.hit cfg now nowc key s = Ok (info, s') /\
    RateLimiter.size s' = grown.
Proof.
  cbv zeta. unfold RateLimiter.getInfo, RateLimiter.size.
  rewrite check_eq, hit_eq. cbv zeta. cbn [snd].
  assert (Hsize : forall r, size (<[key := r]> s)
                  = match s !! key with Some _ => size s | None => S (size s) end).
  { intros r. destruct (s !! key) eqn:Hk.
    - by eapply map_size_insert_Some.
    - by apply map_size_insert_None. }
  split; [apply Hsize|]. split; [apply Hsize|].
  destruct (isLimited _); do 2 eexists; (split; [reflexivity | apply Hsize]).
Qed.

(** ** What a [RateLimitInfo] can hold *)

(** The view [check] returns echoes the configured limit, its remaining
    count lies between 0 and the limit, and it is limited exactly when
    nothing remains.  The view [hit] returns has the same bounds; when it is
    limited nothing remains, and when it is not, what remains is strictly
    below the limit: the slot just taken is counted. *)
Theorem info_within_bounds (cfg : MergedConfig.t) (now nowc : Z)
    (key : string) (s : gmap string RateLimitRecord) :
  let c := fst (RateLimiter.check cfg nowc key s) in
  (limit c = MergedConfig.limit cfg /\
   0 <= remaining c <= Z.max 0 (MergedConfig.limit cfg) /\
   (isLimited c = true <-> remaining c = 0)) /\
  exists h s',
    RateLimiter.hit cfg now nowc key s = Ok (h, s') /\
    limit h = MergedConfig.limit cfg /\
    0 <= remaining h <= Z.max 0 (MergedConfig.limit cfg) /\
    isLimited h = isLimited c /\
    (if isLimited h then remaining h = 0
     else remaining h = remaining c - 1 /\
          remaining h < MergedConfig.limit cfg).
Proof.
  cbv zeta. rewrite check_eq, hit_eq. cbv zeta. cbn [fst].
  set (r := mkRecord (live cfg nowc s key) nowc).
  assert (Hc : limit (RateLimiter.info_of cfg nowc r) = MergedConfig.limit cfg /\
               0 <= remaining (RateLimiter.info_of cfg nowc r)
                 <= Z.max 0 (MergedConfig.limit cfg) /\
               (isLimited (RateLimiter.info_of cfg nowc r) = true
                <-> remaining (RateLimiter.info_of cfg nowc r) = 0)).
  { unfold RateLimiter.info_of. cbn [limit remaining isLimited].
    rewrite bool_decide_eq_true. split; [reflexivity|]. split; [lia | tauto]. }
  split; [exact Hc|]. destruct Hc as (Hl & Hr & Hlim).
  destruct (isLimited (RateLimiter.info_of cfg nowc r)) eqn:E.
  - do 2 eexists. split; [reflexivity|]. rewrite E.
    repeat split; try done; try lia.
  - do 2 eexists. split; [reflexivity|]. cbn [limit remaining isLimited].
    assert (remaining (RateLimiter.info_of cfg nowc r) <> 0).
    { intros H0. apply Hlim in H0. congruence. }
    repeat split; try done; lia.
Qed.

(** ** The reset instant lies in the coming window *)

Lemma head_filter_elem {A} (P : A -> Prop) `{!forall x, Decision (P x)}
    (l : list A) (x : A) :
  head (filter P l) = Some x -> P x /\ x ∈ l.
Proof.
  intros Hhead. apply (proj1 (list_elem_of_filter P l x)).
  destruct (filter P l) as [|y l'] eqn:E; [discriminate|].
  injection Hhead as ->. apply list_elem_of_here.
Qed.

Lemma check_resetAt_bounds cfg T now key s :
  0 < MergedConfig.windowMs cfg ->
  store_wf T s ->
  T <= now ->
  now < resetAt (fst (RateLimiter.check cfg now key s))
      <= now + MergedConfig.windowMs cfg.
Proof.
  intros HW Hwf HT. rewrite check_resetAt.
  destruct (head (live cfg now s key)) as [t|] eqn:Hhead; [|lia].
  case_decide; [lia|].
  pose proof (store_wf_live cfg T now s key Hwf HT) as Hle.
  unfold live in Hhead, Hle. apply head_filter_elem in Hhead as Hin.
  destruct Hin as [Hgt _].
  assert (Ht : t <= now).
  { rewrite Forall_forall in Hle. apply Hle. apply list_elem_of_In.
    destruct (filter _ _) as [|y l'] eqn:E; [discriminate|].
    injection Hhead as ->. apply list_elem_of_here. }
  lia.
Qed.

(** With a positive window and a clock that has not gone back since the
    store was written, the reset instant [check] reports lies after [now]
    and at most one window after it, so the delay until reset is positive
    and never longer than the window. *)
Theorem check_resetAt_in_coming_window (cfg : MergedConfig.t) (T now : Z)
    (key : string) (s : gmap string RateLimitRecord) :
  0 < MergedConfig.windowMs cfg ->
  store_wf T s ->
  T <= now ->
  now < resetAt (fst (RateLimiter.check cfg now key s))
      <= now + MergedConfig.windowMs cfg.
Proof. apply check_resetAt_bounds. Qed.

(** One hit at 1000 ms, checked 40 ms later with a window of 100 ms. *)
Lemma check_resetAt_in_coming_window_witness :
  let cfg := merge testStrict in
  let s : gmap string RateLimitRecord := {["k" := mkRecord [1000] 1000]} in
  1040 < resetAt (fst (RateLimiter.check cfg 1040 "k" s))
       <= 1040 + MergedConfig.windowMs cfg.
Proof.
  cbv zeta.
  apply (check_resetAt_in_coming_window (merge testStrict) 1000 1040 "k"
           {["k" := mkRecord [1000] 1000]}).
  - reflexivity.
  - intros k r Hk. apply lookup_singleton_Some in Hk as [_ <-].
    cbn [timestamps lastAccess]. split; [repeat constructor; lia | lia].
  - lia.
Defined.

(** ** No record ever holds more timestamps than the limit *)

Lemma capacity_insert cfg s k r :
  capacity cfg s ->
  Z.of_nat (length (timestamps r)) <= Z.max 0 (MergedConfig.limit cfg) ->
  capacity cfg (<[k := r]> s).
Proof.
  intros Hcap Hr k' r' Hk'. destruct (decide (k = k')) as [->|Hne].
  - rewrite lookup_insert_eq in Hk'. by injection Hk' as <-.
  - rewrite lookup_insert_ne in Hk' by done. by eapply Hcap.
Qed.

Lemma capacity_live cfg now s k :
  capacity cfg s ->
  Z.of_nat (length (live cfg now s k)) <= Z.max 0 (MergedConfig.limit cfg).
Proof.
  intros Hcap. unfold live.
  pose proof (length_filter
                (fun ts => ts > now - MergedConfig.windowMs cfg)
                (timestamps_of s k)) as Hle.
  assert (Z.of_nat (length (timestamps_of s k))
          <= Z.max 0 (MergedConfig.limit cfg)); [|lia].
  unfold timestamps_of. destruct (s !! k) as [r|] eqn:Hk.
  - by eapply Hcap.
  - simpl. lia.
Qed.

Lemma step_capacity cfg o s out s' :
  capacity cfg s -> step cfg o s = Ok (out, s') -> capacity cfg s'.
Proof.
  intros Hcap.
  destruct o as [k now|k now|k now nowc|k| |now]; cbn [step].
  - rewrite check_eq. intros [= <- <-].
    apply capacity_insert; [done|]. by apply capacity_live.
  - unfold RateLimiter.getInfo. rewrite check_eq. intros [= <- <-].
    apply capacity_insert; [done|]. by apply capacity_live.
  - rewrite hit_eq. cbv zeta.
    destruct (isLimited _) eqn:Hlim; cbn [mbind result_bind];
      intros [= <- <-]; (apply capacity_insert; [done|]).
    + by apply capacity_live.
    + apply isLimited_false_iff in Hlim. cbn [timestamps] in *.
      rewrite length_app. simpl. lia.
  - intros [= <- <-] k' r Hk'. unfold RateLimiter.reset in Hk'.
    apply lookup_delete_Some in Hk' as [_ Hk']. by eapply Hcap.
  - intros [= <- <-] k' r Hk'. unfold RateLimiter.resetAll in Hk'.
    by rewrite lookup_empty in Hk'.
  - intros [= <- <-] k' r Hk'. rewrite cleanup_lookup in Hk'.
    destruct (s !! k') as [r'|] eqn:E; [|discriminate].
    case_decide; [discriminate|]. injection Hk' as <-. by eapply Hcap.
Qed.

Lemma run_capacity cfg ops : forall s outs s',
  capacity cfg s -> run cfg ops s = Ok (outs, s') -> capacity cfg s'.
Proof.
  induction ops as [|o ops IH]; intros s outs s' Hcap Hrun; cbn [run] in Hrun.
  - by injection Hrun as <- <-.
  - destruct (step_total cfg o s) as (out & t & E). rewrite E in Hrun.
    cbn [mbind result_bind] in Hrun.
    destruct (run_total cfg ops t) as (outs' & t' & F). rewrite F in Hrun.
    cbn [mbind result_bind] in Hrun. injection Hrun as <- <-.
    eapply IH; [|exact F]. by eapply step_capacity.
Qed.

(** Whatever calls are made on a new limiter, in whatever order and at
    whatever clock readings, no record ever holds more timestamps than
    [max 0 limit]; in particular no window ever contains more recorded
    timestamps of a key than the limit. *)
Theorem records_never_exceed_limit (cfg : MergedConfig.t) (ops : list op) :
  exists outs s,
    run cfg ops ∅ = Ok (outs, s) /\
    capacity cfg s /\
    forall key now,
      Z.of_nat (length (live cfg now s key))
      <= Z.max 0 (MergedConfig.limit cfg).
Proof.
  destruct (run_total cfg ops ∅) as (outs & s & Hrun).
  assert (Hcap : capacity cfg s).
  { eapply run_capacity; [|exact Hrun].
    intros k r Hk. by rewrite lookup_empty in Hk. }
  exists outs, s. split; [exact Hrun|]. split; [exact Hcap|].
  intros key now. by apply capacity_live.
Qed.

(** ** At most [limit] admitted hits in any window *)

Lemma filter_filter_implied {A} (P Q : A -> Prop)
    `{!forall x, Decision (P x)} `{!forall x, Decision (Q x)} (l : list A) :
  (forall x, P x -> Q x) -> filter P (filter Q l) = filter P l.
Proof.
  intros HPQ. induction l as [|x l IH]; [done|].
  rewrite (filter_cons Q). destruct (decide (Q x)) as [HQ|HQ].
  - rewrite !filter_cons. destruct (decide (P x)); by rewrite IH.
  - rewrite filter_cons. destruct (decide (P x)) as [HP|HP]; [|exact IH].
    by apply HPQ in HP.
Qed.

Section WindowGuarantee.
Variable cfg : MergedConfig.t.
Variable key : string.

Local Abbreviation W := (MergedConfig.windowMs cfg).

Local Abbreviation agree := (window_agrees cfg key).

Lemma live_later T c s k :
  T <= c -> filter (fun ts => ts > c - W) (live cfg T s k) = live cfg c s k.
Proof.
  intros HT. unfold live. apply filter_filter_implied. intros ts. lia.
Qed.

Lemma agree_later T c A s : T <= c -> agree T A s -> agree c A s.
Proof.
  unfold window_agrees. intros HT Hag.
  rewrite <- (live_later T c s key HT), <- Hag.
  symmetry. apply filter_filter_implied. intros ts. lia.
Qed.

(** Pruning a record at [now] does not change what any later window shows. *)
Lemma live_after_prune now c k s tail la :
  now <= c ->
  live cfg c (<[k := mkRecord (live cfg now s k ++ tail) la]> s) key
  = live cfg c s key
    ++ (if decide (k = key) then filter (fun ts => ts > c - W) tail else []).
Proof.
  intros Hc. destruct (decide (k = key)) as [->|Hne].
  - unfold live at 1. rewrite timestamps_of_insert. cbn [timestamps].
    rewrite list.filter_app. f_equal. by apply live_later.
  - unfold live, timestamps_of. rewrite lookup_insert_ne by done.
    by rewrite app_nil_r.
Qed.

Lemma step_agree T A o s out s' :
  store_wf T s -> agree T A s ->
  ascending T (op_readings o) -> is_reset o = false ->
  step cfg o s = Ok (out, s') ->
  agree (clock_after_op T o) (A ++ admitted key [o] [out]) s'.
Proof.
  intros Hwf Hag Hasc Hnr.
  destruct o as [k now|k now|k now nowc|k| |now];
    cbn [step op_readings clock_after_op List.last ascending is_reset] in *;
    try discriminate.
  - destruct Hasc as [Hnow _]. rewrite check_eq. intros [= <- <-].
    cbn [admitted]. rewrite !app_nil_r. unfold window_agrees.
    rewrite <- (app_nil_r (live cfg now s k)).
    rewrite live_after_prune by lia.
    replace (if decide (k = key) then filter _ [] else []) with (@nil Z)
      by (by destruct (decide (k = key))).
    rewrite app_nil_r. by apply (agree_later T now).
  - destruct Hasc as [Hnow _]. unfold RateLimiter.getInfo.
    rewrite check_eq. intros [= <- <-].
    cbn [admitted]. rewrite !app_nil_r. unfold window_agrees.
    rewrite <- (app_nil_r (live cfg now s k)).
    rewrite live_after_prune by lia.
    replace (if decide (k = key) then filter _ [] else []) with (@nil Z)
      by (by destruct (decide (k = key))).
    rewrite app_nil_r. by apply (agree_later T now).
  - destruct Hasc as (Hnow & Hnowc & _). rewrite hit_eq. cbv zeta.
    assert (Hag' : agree nowc A s) by (apply (agree_later T nowc); [lia|done]).
    destruct (isLimited _) eqn:Hlim; cbn [mbind result_bind];
      intros [= <- <-]; cbn [admitted isLimited]; unfold window_agrees.
    + rewrite Hlim.
      replace (if decide (k = key) then [] else []) with (@nil Z)
        by (by destruct (decide (k = key))).
      rewrite !app_nil_r.
      rewrite <- (app_nil_r (live cfg nowc s k)).
      rewrite live_after_prune by lia.
      replace (if decide (k = key) then filter _ [] else []) with (@nil Z)
        by (by destruct (decide (k = key))).
      rewrite app_nil_r. exact Hag'.
    + rewrite app_nil_r, live_after_prune by lia. rewrite list.filter_app.
      unfold window_agrees in Hag'. rewrite Hag'. f_equal.
      by destruct (decide (k = key)).
  - destruct Hasc as [Hnow _]. intros [= <- <-].
    cbn [admitted]. rewrite !app_nil_r. unfold window_agrees.
    assert (Hag' : agree now A s) by (by apply (agree_later T now)).
    unfold window_agrees in Hag'. rewrite Hag'. unfold live, timestamps_of.
    rewrite cleanup_lookup. destruct (s !! key) as [r|] eqn:Hk; [|done].
    case_decide as Hexp; [|done]. cbn [default timestamps].
    rewrite filter_nil. apply (dead_at_filter cfg now); [|lia].
    by eapply expired_dead.
Qed.

Lemma run_agree ops : forall T A s outs s',
  store_wf T s -> agree T A s ->
  chronological T ops -> Forall (fun o => is_reset o = false) ops ->
  run cfg ops s = Ok (outs, s') ->
  agree (clock_after T ops) (A ++ admitted key ops outs) s'.
Proof.
  induction ops as [|o ops IH]; intros T A s outs s' Hwf Hag Hchr Hnr Hrun.
  - cbn [run] in Hrun. injection Hrun as <- <-.
    cbn [clock_after admitted]. by rewrite app_nil_r.
  - cbn [run clock_after chronological] in *. destruct Hchr as [Hasc Hchr].
    apply Forall_cons_iff in Hnr as [Hno Hnr].
    destruct (step_total cfg o s) as (out & t & E). rewrite E in Hrun.
    cbn [mbind result_bind] in Hrun.
    destruct (run_total cfg ops t) as (outs' & t' & F). rewrite F in Hrun.
    cbn [mbind result_bind] in Hrun. injection Hrun as <- <-.
    destruct (step_wf cfg T o s out t Hwf Hasc E) as [_ Hwf'].
    pose proof (step_agree T A o s out t Hwf Hag Hasc Hno E) as Hag'.
    specialize (IH _ _ t outs' t' Hwf' Hag' Hchr Hnr F).
    cbn [admitted] in IH |- *.
    rewrite app_nil_r in IH. rewrite app_assoc. exact IH.
Qed.

End WindowGuarantee.

(** In a history of [check], [getInfo], [hit] and sweeps on a new limiter,
    during which the clock never goes back, the hits admitted for a key
    whose timestamps fall in a window that ends at the current clock or
    later are exactly the timestamps the record of the key shows in that
    window; so no such window ever contains more than [max 0 limit] admitted
    hits of one key.  (A [reset] gives allowance back and is excluded.) *)
Theorem at_most_limit_admitted_per_window (cfg : MergedConfig.t)
    (key : string) (T0 c : Z) (ops : list op) :
  chronological T0 ops ->
  Forall (fun o => is_reset o = false) ops ->
  clock_after T0 ops <= c ->
  exists outs s,
    run cfg ops ∅ = Ok (outs, s) /\
    filter (fun ts => ts > c - MergedConfig.windowMs cfg)
           (admitted key ops outs)
      = live cfg c s key /\
    Z.of_nat (length (filter (fun ts => ts > c - MergedConfig.windowMs cfg)
                             (admitted key ops outs)))
      <= Z.max 0 (MergedConfig.limit cfg).
Proof.
  intros Hchr Hnr Hc.
  destruct (run_total cfg ops ∅) as (outs & s & Hrun).
  exists outs, s. split; [exact Hrun|].
  assert (Hag : window_agrees cfg key c (admitted key ops outs) s).
  { apply (agree_later cfg key (clock_after T0 ops) c); [exact Hc|].
    apply (run_agree cfg key ops T0 [] ∅ outs s); done. }
  split; [exact Hag|]. unfold window_agrees in Hag. rewrite Hag.
  apply capacity_live. eapply run_capacity; [|exact Hrun].
  intros k r Hk. by rewrite lookup_empty in Hk.
Qed.

(** Three hits, a sweep and a fourth hit under the strict fixture. *)
Lemma at_most_limit_admitted_per_window_witness :
  let cfg := merge testStrict in
  let ops := [OpHit "k" 1000 1000; OpHit "k" 1060 1060; OpHit "k" 1065 1065;
              OpCleanup 1100; OpHit "k" 1125 1126] in
  exists outs s,
    run cfg ops ∅ = Ok (outs, s) /\
    filter (fun ts => ts > 1130 - MergedConfig.windowMs cfg)
           (admitted "k" ops outs)
      = live cfg 1130 s "k" /\
    Z.of_nat (length (filter (fun ts => ts > 1130 - MergedConfig.windowMs cfg)
                             (admitted "k" ops outs)))
      <= Z.max 0 (MergedConfig.limit cfg).
Proof.
  cbv zeta.
  apply (at_most_limit_admitted_per_window (merge testStrict) "k" 0 1130
           [OpHit "k" 1000 1000; OpHit "k" 1060 1060; OpHit "k" 1065 1065;
            OpCleanup 1100; OpHit "k" 1125 1126]).
  - cbn. lia.
  - repeat constructor.
  - cbn. lia.
Defined.

(** ** More on the sweep *)

(** The loop of [cleanup] computes a filter: the store it leaves is the
    store restricted to the records whose last access does not predate
    [now - 2 * windowMs].  It therefore only removes records, never changes
    one, and never makes the store larger. *)
Theorem cleanup_is_a_filter (cfg : MergedConfig.t) (now : Z)
    (s : gmap string RateLimitRecord) :
  RateLimiter.cleanup cfg now s
    = filter (fun kr => ~ expired cfg now (snd kr)) s /\
  RateLimiter.cleanup cfg now s ⊆ s /\
  (RateLimiter.size (RateLimiter.cleanup cfg now s) <= RateLimiter.size s)%nat.
Proof.
  assert (Heq : RateLimiter.cleanup cfg now s
                = filter (fun kr => ~ expired cfg now (snd kr)) s).
  { apply map_eq. intros k. rewrite cleanup_lookup, map_lookup_filter.
    destruct (s !! k) as [r|]; [|reflexivity]. cbn [mbind option_bind snd].
    destruct (decide (expired cfg now r)) as [Hexp|Hexp].
    - rewrite option_guard_False; [reflexivity | tauto].
    - by rewrite option_guard_True. }
  split; [exact Heq|]. rewrite Heq.
  split; [apply map_filter_subseteq|].
  unfold RateLimiter.size. apply map_subseteq_size, map_filter_subseteq.
Qed.

(** Two sweeps in a row do what the later one does alone; in particular a
    sweep repeated at the same instant changes nothing. *)
Theorem cleanup_twice_is_the_later (cfg : MergedConfig.t) (now now' : Z)
    (s : gmap string RateLimitRecord) :
  now <= now' ->
  RateLimiter.cleanup cfg now' (RateLimiter.cleanup cfg now s)
    = RateLimiter.cleanup cfg now' s.
Proof.
  intros Hle. apply map_eq. intros k. rewrite !cleanup_lookup.
  destruct (s !! k) as [r|]; [|reflexivity].
  destruct (decide (expired cfg now r)) as [Hexp|Hexp].
  - case_decide as Hexp'; [reflexivity|]. unfold expired in *. lia.
  - reflexivity.
Qed.

Lemma cleanup_twice_is_the_later_witness :
  let cfg := merge testStrict in
  let s : gmap string RateLimitRecord :=
    {["a" := mkRecord [1000] 1000; "b" := mkRecord [1250] 1250]} in
  RateLimiter.cleanup cfg 1500 (RateLimiter.cleanup cfg 1300 s)
    = RateLimiter.cleanup cfg 1500 s.
Proof.
  cbv zeta.
  apply (cleanup_twice_is_the_later (merge testStrict) 1300 1500). lia.
Defined.

(** A key that was just checked or hit survives every sweep made within
    twice the window of that access: the sweep finds the record [hit] left
    and leaves it in place. *)
Theorem sweep_spares_recent_keys (cfg : MergedConfig.t) (now nowc T : Z)
    (key : string) (s : gmap string RateLimitRecord) :
  T - nowc <= 2 * MergedConfig.windowMs cfg ->
  exists info s' r,
    RateLimiter.hit cfg now nowc key s = Ok (info, s') /\
    s' !! key = Some r /\
    lastAccess r = nowc /\
    RateLimiter.cleanup cfg T s' !! key = Some r /\
    RateLimiter.cleanup cfg T
      (snd (RateLimiter.check cfg nowc key s)) !! key
      = snd (RateLimiter.check cfg nowc key s) !! key.
Proof.
  intros HT. rewrite hit_eq, check_eq. cbv zeta. cbn [snd].
  assert (Hkeep : forall ts,
    RateLimiter.cleanup cfg T (<[key := mkRecord ts nowc]> s) !! key
    = Some (mkRecord ts nowc)).
  { intros ts. rewrite cleanup_lookup, lookup_insert_eq.
    case_decide as Hexp; [|reflexivity].
    unfold expired in Hexp. cbn [lastAccess] in Hexp. lia. }
  destruct (isLimited _).
  - do 2 eexists. exists (mkRecord (live cfg nowc s key) nowc).
    split; [reflexivity|]. split; [apply lookup_insert_eq|].
    split; [reflexivity|]. split; [apply Hkeep|].
    by rewrite Hkeep, lookup_insert_eq.
  - do 2 eexists. exists (mkRecord (live cfg nowc s key ++ [now]) nowc).
    split; [reflexivity|]. split; [apply lookup_insert_eq|].
    split; [reflexivity|]. split; [apply Hkeep|].
    by rewrite Hkeep, lookup_insert_eq.
Qed.

Lemma sweep_spares_recent_keys_witness :
  let cfg := merge testStrict in
  exists info s' r,
    RateLimiter.hit cfg 1000 1001 "k" ∅ = Ok (info, s') /\
    s' !! "k" = Some r /\
    lastAccess r = 1001 /\
    RateLimiter.cleanup cfg 1201 s' !! "k" = Some r /\
    RateLimiter.cleanup cfg 1201
      (snd (RateLimiter.check cfg 1001 "k" ∅)) !! "k"
      = snd (RateLimiter.check cfg 1001 "k" ∅) !! "k".
Proof.
  cbv zeta.
  apply (sweep_spares_recent_keys (merge testStrict) 1000 1001 1201 "k" ∅).
  cbn. lia.
Defined.

(** ** requireRateLimit *)

Lemma ceil_div_1000_mono a b : a <= b -> ceil_div_1000 a <= ceil_div_1000 b.
Proof.
  intros Hab. pose proof (ceil_div_1000_spec a). pose proof (ceil_div_1000_spec b).
  lia.
Qed.

Lemma ceil_div_1000_pos a : 0 < a -> 1 <= ceil_div_1000 a.
Proof. intros Ha. pose proof (ceil_div_1000_spec a). lia. Qed.

Lemma hit_resetAt cfg now nowc key s info s' :
  RateLimiter.hit cfg now nowc key s = Ok (info, s') ->
  resetAt info = resetAt (fst (RateLimiter.check cfg nowc key s)).
Proof.
  rewrite hit_eq, check_eq. cbv zeta.
  by destruct (isLimited _); intros [= <- <-].
Qed.

Lemma hit_limit cfg now nowc key s info s' :
  RateLimiter.hit cfg now nowc key s = Ok (info, s') ->
  limit info = MergedConfig.limit cfg.
Proof.
  rewrite hit_eq. cbv zeta.
  by destruct (isLimited _); intros [= <- <-].
Qed.

(** [requireRateLimit] returns normally exactly when the hit is admitted and
    throws a [RateLimitError] exactly when it is limited, never anything
    else, on every store and at every reading of the clock; either way the
    limiter keeps the store [hit] left.  The retry delay it throws is the
    delay until [resetAt] in whole seconds, rounded up.  With a positive
    window and a clock that has not gone back, that delay is at most the
    window in seconds, rounded up, and it is at least one second when it is
    computed at the reading [check] took. *)
Theorem requireRateLimit_throws_iff_limited (cfg : MergedConfig.t)
    (T now nowc retryNow : Z) (key : string)
    (s : gmap string RateLimitRecord) :
  exists info s' retryAfter,
    RateLimiter.hit cfg now nowc key s = Ok (info, s') /\
    requireRateLimit cfg now nowc retryNow key s =
      (if isLimited info then Throw (RateLimitError retryAfter) else Ok tt,
       s') /\
    1000 * (retryAfter - 1) < resetAt info - retryNow <= 1000 * retryAfter /\
    (0 < MergedConfig.windowMs cfg ->
     store_wf T s ->
     T <= nowc <= retryNow ->
     1000 * (retryAfter - 1) < MergedConfig.windowMs cfg /\
     (retryNow = nowc -> 1 <= retryAfter)).
Proof.
  destruct (step_total cfg (OpHit key now nowc) s) as (out & s' & Hstep).
  cbn [step] in Hstep.
  destruct (RateLimiter.hit cfg now nowc key s) as [[info s'']|e] eqn:Hhit;
    cbn [mbind result_bind] in Hstep; [|discriminate].
  exists info, s'', (ceil_div_1000 (resetAt info - retryNow)).
  split; [reflexivity|].
  pose proof (ceil_div_1000_spec (resetAt info - retryNow)) as Hceil.
  split; [|split; [exact Hceil|]].
  - unfold requireRateLimit. rewrite Hhit. by destruct (isLimited info).
  - intros HW Hwf [HT Hretry].
    pose proof (check_resetAt_bounds cfg T nowc key s HW Hwf HT) as Hreset.
    rewrite <- (hit_resetAt cfg now nowc key s info s'' Hhit) in Hreset.
    split; [lia|]. intros ->. lia.
Qed.

(** The suite's "should include retry after in error": the second call
    under the single-request fixture. *)
Lemma requireRateLimit_throws_iff_limited_witness :
  let cfg := merge testSingle in
  let s : gmap string RateLimitRecord := {["test" := mkRecord [1000] 1000]} in
  exists info s' retryAfter,
    RateLimiter.hit cfg 1005 1005 "test" s = Ok (info, s') /\
    requireRateLimit cfg 1005 1005 1005 "test" s =
      (if isLimited info then Throw (RateLimitError retryAfter) else Ok tt,
       s') /\
    1000 * (retryAfter - 1) < resetAt info - 1005 <= 1000 * retryAfter /\
    1000 * (retryAfter - 1) < MergedConfig.windowMs cfg /\
    1 <= retryAfter.
Proof.
  cbv zeta.
  destruct (requireRateLimit_throws_iff_limited (merge testSingle) 1000 1005
              1005 1005 "test" {["test" := mkRecord [1000] 1000]})
    as (info & s' & retryAfter & Hhit & Hreq & Hsec & Hbounds).
  exists info, s', retryAfter.
  split; [exact Hhit|]. split; [exact Hreq|]. split; [exact Hsec|].
  destruct Hbounds as [Hupper Hlower].
  - reflexivity.
  - intros k r Hk. apply lookup_singleton_Some in Hk as [_ <-].
    cbn [timestamps lastAccess]. split; [repeat constructor; lia | lia].
  - lia.
  - split; [exact Hupper | by apply Hlower].
Defined.

Example requireRateLimit_fixture :
  let cfg := merge testSingle in
  fst (requireRateLimit cfg 1000 1000 1000 "test" ∅) = Ok tt /\
  fst (requireRateLimit cfg 1005 1005 1006 "test"
         (snd (requireRateLimit cfg 1000 1000 1000 "test" ∅)))
    = Throw (RateLimitError 1).
Proof. vm_compute. split; reflexivity. Qed.

(** ** The default key *)

(** The default key generator never yields the empty string: it yields the
    address of the request if that is a non-empty string, else the address
    of the socket if that is one, else ["unknown"], so all requests without
    an address share one key.  It is the generator of every limiter and
    middleware whose configuration gives none, whatever else the
    configuration sets. *)
Theorem default_key_is_never_empty (req : Request) :
  let key := MergedConfig.keyGenerator DEFAULT_RATE_LIMIT_CONFIG req in
  let missing (a : option string) := a = None \/ a = Some "" in
  key <> "" /\
  (forall config : RateLimitConfig.t,
     RateLimitConfig.keyGenerator config = None ->
     MergedConfig.keyGenerator (merge config) req = key) /\
  ((ip req = Some key) \/
   (missing (ip req) /\ remoteAddress req = Some key) \/
   (missing (ip req) /\ missing (remoteAddress req) /\ key = "unknown")).
Proof.
  cbv zeta. split; [|split].
  - cbn [MergedConfig.keyGenerator DEFAULT_RATE_LIMIT_CONFIG]. unfold or_else.
    destruct (ip req) as [i|]; [destruct (decide (i = "")) as [->|Hi]|];
      (destruct (remoteAddress req) as [a|];
         [destruct (decide (a = "")) as [->|Ha]|]); done.
  - intros config Hnone. unfold merge.
    cbn [MergedConfig.keyGenerator]. by rewrite Hnone.
  - cbn [MergedConfig.keyGenerator DEFAULT_RATE_LIMIT_CONFIG]. unfold or_else.
    destruct (ip req) as [i|]; [destruct (decide (i = "")) as [->|Hi]|];
      (destruct (remoteAddress req) as [a|];
         [destruct (decide (a = "")) as [->|Ha]|]); eauto 10.
Qed.

(** The strict fixture sets a limit and a window and no key generator; a
    request without an address of its own is keyed by its socket. *)
Lemma default_key_is_never_empty_witness :
  let req := mkRequest None (Some "10.0.0.50") "/api/test" "GET" ∅ in
  RateLimitConfig.keyGenerator testStrict = None /\
  MergedConfig.keyGenerator (merge testStrict) req
    = MergedConfig.keyGenerator DEFAULT_RATE_LIMIT_CONFIG req /\
  MergedConfig.keyGenerator DEFAULT_RATE_LIMIT_CONFIG req <> "".
Proof.
  cbv zeta.
  pose proof (default_key_is_never_empty
                (mkRequest None (Some "10.0.0.50") "/api/test" "GET" ∅))
    as (Hne & Hgen & _).
  split; [reflexivity|].
  split; [exact (Hgen testStrict eq_refl) | exact Hne].
Defined.

(** ** A burst counts the allowance down *)

Lemma burst_counts_down cfg key (a b : Z) burst : forall s pre,
  b - a < MergedConfig.windowMs cfg ->
  timestamps_of s key = pre ->
  Forall (fun x => a <= x <= b) pre ->
  Forall (fun p => a <= fst p <= b /\ a <= snd p <= b) burst ->
  Z.of_nat (length pre + length burst) <= MergedConfig.limit cfg ->
  exists infos s1,
    run cfg (hits key burst) s = Ok (infos, s1) /\
    map (fmap remaining) infos
      = map Some (countdown (MergedConfig.limit cfg - Z.of_nat (length pre))
                            (length burst)) /\
    timestamps_of s1 key = pre ++ map fst burst.
Proof.
  induction burst as [|[t tc] burst IH]; intros s pre HW Hpre Hin Hall Hlen.
  - exists [], s. simpl. by rewrite app_nil_r.
  - apply Forall_cons_iff in Hall as [[Ht Htc] Hall].
    simpl in Ht, Htc.
    assert (Hlive : live cfg tc s key = pre).
    { unfold live. rewrite Hpre. by eapply filter_window_all. }
    change (hits key ((t, tc) :: burst))
      with (OpHit key t tc :: hits key burst).
    cbn [run step fst snd]. rewrite hit_eq. cbv zeta. rewrite Hlive.
    destruct (isLimited _) eqn:Hlim.
    { apply isLimited_iff in Hlim. simpl in Hlim, Hlen. lia. }
    cbn [mbind result_bind].
    destruct (IH (<[key := mkRecord (pre ++ [t]) tc]> s) (pre ++ [t]))
      as (infos & s1 & Hrun & Hrem & Hts).
    + exact HW.
    + apply timestamps_of_insert.
    + apply Forall_app. split; [done|]. by constructor.
    + exact Hall.
    + rewrite length_app. simpl in *. lia.
    + rewrite Hrun. cbn [mbind result_bind].
      do 2 eexists. split; [reflexivity|]. split.
      * cbn [map fmap option_fmap option_map remaining length countdown].
        rewrite Hrem. rewrite length_app. cbn [length].
        unfold RateLimiter.info_of. cbn [remaining timestamps].
        apply isLimited_false_iff in Hlim. cbn [timestamps] in Hlim.
        f_equal; [f_equal; lia|]. do 2 f_equal. lia.
      * rewrite Hts, <- app_assoc. reflexivity.
Qed.

(** For a key without a record, hits that all fall in a stretch shorter than
    the window and are no more than the limit are all admitted, and the
    remaining counts they return go down by one each: [limit - 1],
    [limit - 2], and so on; the record then holds their timestamps in
    order. *)
Theorem burst_remaining_counts_down (cfg : MergedConfig.t) (key : string)
    (s : gmap string RateLimitRecord) (burst : list (Z * Z)) (a b : Z) :
  s !! key = None ->
  Z.of_nat (length burst) <= MergedConfig.limit cfg ->
  b - a < MergedConfig.windowMs cfg ->
  Forall (fun p => a <= fst p <= b /\ a <= snd p <= b) burst ->
  exists infos s',
    run cfg (hits key burst) s = Ok (infos, s') /\
    map (fmap remaining) infos
      = map Some (countdown (MergedConfig.limit cfg) (length burst)) /\
    map (fmap isLimited) infos = map (fun _ => Some false) burst /\
    timestamps_of s' key = map fst burst.
Proof.
  intros Hfresh Hlen HW Hall.
  assert (Hts : timestamps_of s key = []).
  { unfold timestamps_of. by rewrite Hfresh. }
  destruct (burst_counts_down cfg key a b burst s [] HW Hts)
    as (infos & s' & Hrun & Hrem & Hstamps); try done.
  destruct (burst_all_pass cfg key a b burst s [] HW Hts)
    as (infos' & s'' & Hrun' & Hpass & _); try done.
  rewrite Hrun in Hrun'. injection Hrun' as <- <-.
  exists infos, s'. split; [exact Hrun|].
  cbn [length] in Hrem. rewrite Z.sub_0_r in Hrem.
  split; [exact Hrem|]. split; [|exact Hstamps].
  assert (Hlen' : length infos = length burst).
  { apply (f_equal length) in Hrem. rewrite !length_map in Hrem.
    rewrite Hrem. clear. generalize (MergedConfig.limit cfg).
    induction (length burst) as [|n IH]; intros z; [done|].
    cbn [countdown length]. by rewrite IH. }
  clear -Hpass Hlen'. revert burst Hlen'.
  induction Hpass as [|o infos Ho Hpass IH]; intros [|p burst] Hlen';
    try discriminate; [done|].
  cbn [map]. rewrite Ho. f_equal. apply IH. by injection Hlen'.
Qed.

(** The suite's "should allow requests within limit": two hits under the
    strict fixture leave 1 and then 0. *)
Lemma burst_remaining_counts_down_witness :
  let cfg := merge testStrict in
  let burst := [(1000, 1000); (1001, 1002)] in
  exists infos s',
    run cfg (hits "k" burst) ∅ = Ok (infos, s') /\
    map (fmap remaining) infos
      = map Some (countdown (MergedConfig.limit cfg) (length burst)) /\
    map (fmap isLimited) infos = map (fun _ => Some false) burst /\
    timestamps_of s' "k" = map fst burst.
Proof.
  cbv zeta.
  apply (burst_remaining_counts_down (merge testStrict) "k" ∅
           [(1000, 1000); (1001, 1002)] 1000 1002).
  - reflexivity.
  - cbn. lia.
  - cbn. lia.
  - repeat constructor; cbn; lia.
Defined.

(** * Further properties of the middleware *)

(** The effects of the middleware on a request it does not skip, in one
    expression. *)
Lemma middleware_gated config env req s :
  skips config req = false ->
  exists info s',
    RateLimiter.hit (merge config) (hitNow env) (checkNow env)
      (MergedConfig.keyGenerator (merge config) req) s = Ok (info, s') /\
    middleware config env req s =
      Ok ((if MergedConfig.headers (merge config)
           then rateLimitHeaders info else [])
          ++ (if isLimited info
              then [SetHeader "Retry-After" (retryAfterOf env info)]
                   ++ match RateLimitConfig.auditLog config with
                      | Some sink =>
                          [AuditLog sink
                             (auditEntryOf env req
                                (MergedConfig.keyGenerator (merge config) req)
                                info)]
                      | None => []
                      end
                   ++ match RateLimitConfig.onLimitReached config with
                      | Some handler => [OnLimitReached handler req info]
                      | None =>
                          [Status 429;
                           Json (mkBody "RATE_LIMIT_EXCEEDED"
                                   (MergedConfig.message (merge config))
                                   (retryAfterOf env info))]
                      end
              else [Next]), s').
Proof.
  intros Hskip. unfold middleware. rewrite Hskip.
  destruct (step_total (merge config)
              (OpHit (MergedConfig.keyGenerator (merge config) req)
                     (hitNow env) (checkNow env)) s) as (out & s' & Hstep).
  cbn [step] in Hstep.
  destruct (RateLimiter.hit _ _ _ _ s) as [[info s'']|e] eqn:Hhit;
    cbn [mbind result_bind] in Hstep; [|discriminate].
  exists info, s''. split; [reflexivity|]. cbn [mbind result_bind].
  destruct (isLimited info); [|reflexivity].
  by destruct (RateLimitConfig.onLimitReached config).
Qed.

Lemma middleware_skipped config env req s :
  skips config req = true -> middleware config env req s = Ok ([Next], s).
Proof. intros Hskip. unfold middleware. by rewrite Hskip. Qed.

Lemma middleware_total config env req s :
  exists effects s', middleware config env req s = Ok (effects, s').
Proof.
  destruct (skips config req) eqn:Hskip.
  - rewrite middleware_skipped by done. by do 2 eexists.
  - destruct (middleware_gated config env req s Hskip) as (i & s' & _ & ->).
    by do 2 eexists.
Qed.

(** ** Who gets [next], who gets a response *)

(** The middleware never throws, and on every request it does exactly one
    of three things.  A request the skip predicate exempts gets [next] and
    nothing else, and the store is not touched.  A request whose hit is
    admitted gets [next] once, no status, no body and no handler call.  A
    request whose hit is limited never gets [next]: with a custom handler
    configured, the handler is called once with the limited
    [RateLimitInfo] and the middleware writes no status and no body;
    without one, it writes status 429 and the rejection body. *)
Theorem middleware_passes_or_answers (config : RateLimitConfig.t) (env : Env)
    (req : Request) (s : gmap string RateLimitRecord) :
  exists effects s',
    middleware config env req s = Ok (effects, s') /\
    if skips config req then effects = [Next] /\ s' = s
    else
      exists info,
        RateLimiter.hit (merge config) (hitNow env) (checkNow env)
          (MergedConfig.keyGenerator (merge config) req) s = Ok (info, s') /\
        next_calls effects = (if isLimited info then 0 else 1)%nat /\
        handler_calls effects =
          (if isLimited info
           then match RateLimitConfig.onLimitReached config with
                | Some handler => [(handler, req, info)]
                | None => []
                end
           else []) /\
        response_writes effects =
          (if isLimited info
           then match RateLimitConfig.onLimitReached config with
                | Some _ => []
                | None =>
                    [Status 429;
                     Json (mkBody "RATE_LIMIT_EXCEEDED"
                             (MergedConfig.message (merge config))
                             (retryAfterOf env info))]
                end
           else []).
Proof.
  destruct (skips config req) eqn:Hskip.
  - exists [Next], s. by rewrite middleware_skipped.
  - destruct (middleware_gated config env req s Hskip)
      as (info & s' & Hhit & Hmw).
    do 2 eexists. split; [exact Hmw|]. exists info. split; [exact Hhit|].
    unfold rateLimitHeaders.
    destruct (MergedConfig.headers (merge config)), (isLimited info),
             (RateLimitConfig.auditLog config),
             (RateLimitConfig.onLimitReached config); by repeat split.
Qed.

(** ** Requests the skip predicate exempts are invisible *)

Lemma serve_from_total config reqs : forall s,
  exists effects, serve_from (createRateLimitMiddleware config) reqs s
                  = Ok effects.
Proof.
  induction reqs as [|[env req] reqs IH]; intros s; cbn [serve_from].
  - by eexists.
  - cbn [handle createRateLimitMiddleware].
    destruct (middleware_total config env req s) as (e & s' & ->).
    cbn [mbind result_bind]. destruct (IH s') as (es & ->).
    by eexists.
Qed.

(** On any sequence of requests, from any store, the middleware performs on
    the requests it does not skip exactly the effects it performs when the
    skipped requests are left out of the sequence: a skipped request
    consumes no allowance and delays no one. *)
Theorem skipped_requests_are_invisible (config : RateLimitConfig.t)
    (reqs : list (Env * Request)) (s : gmap string RateLimitRecord) :
  let m := createRateLimitMiddleware config in
  exists effects,
    serve_from m reqs s = Ok effects /\
    serve_from m (filter (fun er => skips config (snd er) = false) reqs) s
      = Ok (gated_effects config reqs effects).
Proof.
  cbv zeta. revert s.
  induction reqs as [|[env req] reqs IH]; intros s.
  - exists []. by split.
  - destruct (IH s) as (effects_skip & Hskip_all & Hskip_gated).
    cbn [serve_from handle createRateLimitMiddleware].
    rewrite filter_cons. cbn [snd].
    destruct (skips config req) eqn:Hskip.
    + rewrite middleware_skipped by done. cbn [mbind result_bind].
      rewrite Hskip_all. cbn [mbind result_bind].
      eexists. split; [reflexivity|].
      destruct (decide (true = false)); [discriminate|].
      cbn [gated_effects]. rewrite Hskip. exact Hskip_gated.
    + destruct (middleware_total config env req s) as (e & s' & Hmw).
      rewrite Hmw. cbn [mbind result_bind].
      destruct (IH s') as (effects & Hall & Hgated).
      rewrite Hall. cbn [mbind result_bind].
      eexists. split; [reflexivity|].
      destruct (decide (false = false)); [|done].
      cbn [serve_from handle createRateLimitMiddleware gated_effects].
      rewrite Hmw, Hskip. cbn [mbind result_bind]. rewrite Hgated.
      reflexivity.
Qed.

(** The suite's "should skip requests when skip function returns true":
    three health checks do not keep the API request from passing. *)
Example skip_fixture :
  let config :=
    RateLimitConfig.mk (Some 1) (Some 100) None
      (Some (fun req => bool_decide (path req = "/health")))
      None None None None in
  let health := mkRequest (Some "192.168.1.100") (Some "192.168.1.100")
                  "/health" "GET" ∅ in
  let api_req := mkRequest (Some "192.168.1.100") (Some "192.168.1.100")
                   "/api/test" "GET" ∅ in
  let env t := mkEnv t t t t "id" in
  map next_calls
    <$> serve (createRateLimitMiddleware config)
          [(env 1000, health); (env 1001, health); (env 1002, health);
           (env 1003, api_req); (env 1004, api_req)]
  = Ok [1; 1; 1; 1; 0]%nat.
Proof. vm_compute. reflexivity. Qed.

(** ** Headers switched off *)

(** With [headers: false] the middleware never writes any of the three
    [X-RateLimit-*] headers, on any request, skipped, admitted or limited:
    a response keeps whatever values it had under those names. *)
Theorem headers_disabled_writes_no_rate_headers (config : RateLimitConfig.t)
    (env : Env) (req : Request) (s : gmap string RateLimitRecord) :
  MergedConfig.headers (merge config) = false ->
  exists effects s',
    middleware config env req s = Ok (effects, s') /\
    header_writes "X-RateLimit-Limit" effects = [] /\
    header_writes "X-RateLimit-Remaining" effects = [] /\
    header_writes "X-RateLimit-Reset" effects = [] /\
    forall res : Response,
      headers (respond effects res) !! "X-RateLimit-Limit"
        = headers res !! "X-RateLimit-Limit" /\
      headers (respond effects res) !! "X-RateLimit-Remaining"
        = headers res !! "X-RateLimit-Remaining" /\
      headers (respond effects res) !! "X-RateLimit-Reset"
        = headers res !! "X-RateLimit-Reset".
Proof.
  intros Hheaders. destruct (skips config req) eqn:Hskip.
  - exists [Next], s. rewrite middleware_skipped by done. by repeat split.
  - destruct (middleware_gated config env req s Hskip)
      as (info & s' & _ & Hmw).
    rewrite Hheaders in Hmw. do 2 eexists. split; [exact Hmw|].
    destruct (isLimited info), (RateLimitConfig.auditLog config),
             (RateLimitConfig.onLimitReached config);
      repeat split; cbn [respond foldl write app headers];
      by simplify_map_eq.
Qed.

(** The suite's "should not set headers when disabled". *)
Lemma headers_disabled_writes_no_rate_headers_witness :
  let config :=
    RateLimitConfig.mk (Some 2) (Some 100) None None None None
      (Some false) None in
  let env := mkEnv 1000 1000 1000 1000 "id" in
  let req := mkRequest (Some "192.168.1.100") (Some "192.168.1.100")
               "/api/test" "GET" ∅ in
  exists effects s',
    middleware config env req ∅ = Ok (effects, s') /\
    header_writes "X-RateLimit-Limit" effects = [] /\
    header_writes "X-RateLimit-Remaining" effects = [] /\
    header_writes "X-RateLimit-Reset" effects = [] /\
    forall res : Response,
      headers (respond effects res) !! "X-RateLimit-Limit"
        = headers res !! "X-RateLimit-Limit" /\
      headers (respond effects res) !! "X-RateLimit-Remaining"
        = headers res !! "X-RateLimit-Remaining" /\
      headers (respond effects res) !! "X-RateLimit-Reset"
        = headers res !! "X-RateLimit-Reset".
Proof.
  cbv zeta.
  apply (headers_disabled_writes_no_rate_headers
           (RateLimitConfig.mk (Some 2) (Some 100) None None None None
              (Some false) None)).
  reflexivity.
Defined.

(** ** One retry delay, reported three times *)

(** On a request it does not skip, the middleware writes [Retry-After]
    exactly when the hit is limited, once, and never on an admitted one.  It
    hands the audit sink one entry exactly when the hit is limited and a
    sink is configured; the entry is marked unsuccessful, names the action
    ["rate_limit.exceeded"], the key as actor and the path as resource.  The
    delay in the header, in the audit entry and in the default body is one
    and the same value. *)
Theorem retry_delay_is_reported_consistently (config : RateLimitConfig.t)
    (env : Env) (req : Request) (s : gmap string RateLimitRecord) :
  skips config req = false ->
  let key := MergedConfig.keyGenerator (merge config) req in
  exists info s' effects,
    RateLimiter.hit (merge config) (hitNow env) (checkNow env) key s
      = Ok (info, s') /\
    middleware config env req s = Ok (effects, s') /\
    header_writes "Retry-After" effects =
      (if isLimited info then [retryAfterOf env info] else []) /\
    length (audits effects) =
      (if isLimited info
       then match RateLimitConfig.auditLog config with
            | Some _ => 1
            | None => 0
            end
       else 0)%nat /\
    Forall (fun entry =>
              AuditEntry.success entry = false /\
              AuditEntry.action entry = "rate_limit.exceeded" /\
              AuditEntry.actor entry = key /\
              AuditEntry.resource entry = path req /\
              AuditEntry.meta_limit (AuditEntry.metadata entry)
                = MergedConfig.limit (merge config) /\
              AuditEntry.meta_retryAfter (AuditEntry.metadata entry)
                = retryAfterOf env info)
           (audits effects) /\
    Forall (fun w => match w with
                     | Json b => body_retryAfter b = retryAfterOf env info
                     | _ => True
                     end)
           (response_writes effects).
Proof.
  intros Hskip. cbv zeta.
  destruct (middleware_gated config env req s Hskip)
    as (info & s' & Hhit & Hmw).
  exists info, s'. eexists. split; [exact Hhit|]. split; [exact Hmw|].
  pose proof (hit_limit _ _ _ _ _ _ _ Hhit) as Hlimit.
  unfold rateLimitHeaders, auditEntryOf.
  destruct (MergedConfig.headers (merge config)), (isLimited info),
           (RateLimitConfig.auditLog config),
           (RateLimitConfig.onLimitReached config);
    repeat split; repeat constructor; done.
Qed.

(** The second request of one client under the single-request fixture, with
    an audit sink. *)
Lemma retry_delay_is_reported_consistently_witness :
  let config :=
    RateLimitConfig.mk (Some 1) (Some 100) None None None
      (Some (Callback "auditLog")) None None in
  let env := mkEnv 1010 1010 1011 1012 "id" in
  let req := mkRequest (Some "192.168.1.100") (Some "192.168.1.100")
               "/api/test" "GET" ∅ in
  let s : gmap string RateLimitRecord :=
    {["192.168.1.100" := mkRecord [1000] 1000]} in
  let key := MergedConfig.keyGenerator (merge config) req in
  exists info s' effects,
    RateLimiter.hit (merge config) (hitNow env) (checkNow env) key s
      = Ok (info, s') /\
    middleware config env req s = Ok (effects, s') /\
    header_writes "Retry-After" effects =
      (if isLimited info then [retryAfterOf env info] else []) /\
    length (audits effects) =
      (if isLimited info
       then match RateLimitConfig.auditLog config with
            | Some _ => 1
            | None => 0
            end
       else 0)%nat /\
    Forall (fun entry =>
              AuditEntry.success entry = false /\
              AuditEntry.action entry = "rate_limit.exceeded" /\
              AuditEntry.actor entry = key /\
              AuditEntry.resource entry = path req /\
              AuditEntry.meta_limit (AuditEntry.metadata entry)
                = MergedConfig.limit (merge config) /\
              AuditEntry.meta_retryAfter (AuditEntry.metadata entry)
                = retryAfterOf env info)
           (audits effects) /\
    Forall (fun w => match w with
                     | Json b => body_retryAfter b = retryAfterOf env info
                     | _ => True
                     end)
           (response_writes effects).
Proof.
  cbv zeta.
  apply (retry_delay_is_reported_consistently
           (RateLimitConfig.mk (Some 1) (Some 100) None None None
              (Some (Callback "auditLog")) None None)
           (mkEnv 1010 1010 1011 1012 "id")
           (mkRequest (Some "192.168.1.100") (Some "192.168.1.100")
              "/api/test" "GET" ∅)
           {["192.168.1.100" := mkRecord [1000] 1000]}).
  reflexivity.
Defined.

(** ** The shared limiter *)

Lemma sharedMiddleware_eq config env req s :
  sharedMiddleware config env req s = middleware config env req s.
Proof.
  unfold sharedMiddleware, middleware, rateLimitHeaders, retryAfterOf,
    auditEntryOf.
  destruct (skips config req); [reflexivity|].
  destruct (RateLimiter.hit _ _ _ _ s) as [[info s']|e]; [|reflexivity].
  cbn [mbind result_bind].
  destruct (isLimited info); [|reflexivity].
  destruct (MergedConfig.headers (merge config)),
           (RateLimitConfig.auditLog config),
           (RateLimitConfig.onLimitReached config); reflexivity.
Qed.

Lemma live_insert cfg t s key r :
  live cfg t (<[key := r]> s) key
  = filter (fun ts => ts > t - MergedConfig.windowMs cfg) (timestamps r).
Proof. unfold live. by rewrite timestamps_of_insert. Qed.

Lemma filter_all_live (W t : Z) (l : list Z) :
  Forall (fun ts => ts > t - W) l -> filter (fun ts => ts > t - W) l = l.
Proof.
  intros Hall. induction Hall as [|x l Hx Hl IH]; [done|].
  rewrite filter_cons. destruct (decide (x > t - W)); [by rewrite IH | done].
Qed.

(** What [hit] reports as remaining is what [getInfo] reports afterwards, as
    long as no timestamp involved has left the window. *)
Lemma getInfo_after_hit cfg now nowc key s t info s' :
  RateLimiter.hit cfg now nowc key s = Ok (info, s') ->
  Forall (fun ts => ts > t - MergedConfig.windowMs cfg) (timestamps_of s key) ->
  now > t - MergedConfig.windowMs cfg ->
  remaining (fst (RateLimiter.getInfo cfg t key s')) = remaining info.
Proof.
  intros Hhit Hold Hnew.
  unfold RateLimiter.getInfo. rewrite check_eq. cbn [fst].
  revert Hhit. rewrite hit_eq. cbv zeta.
  assert (Hlive : Forall (fun ts => ts > t - MergedConfig.windowMs cfg)
                    (live cfg nowc s key)).
  { unfold live. by apply Forall_filter_of. }
  destruct (isLimited (RateLimiter.info_of _ _ _)) eqn:Hlim;
    intros [= <- <-].
  - rewrite live_insert. cbn [timestamps].
    rewrite filter_all_live by done.
    unfold RateLimiter.info_of. reflexivity.
  - rewrite live_insert. cbn [timestamps].
    rewrite filter_all_live.
    2:{ apply Forall_app. split; [done|]. by repeat constructor. }
    apply isLimited_false_iff in Hlim. cbn [timestamps] in Hlim.
    unfold RateLimiter.info_of. cbn [remaining timestamps].
    rewrite length_app. cbn [length]. lia.
Qed.

(** The middleware of [createSharedRateLimiter] behaves on every request as
    the one of [createRateLimitMiddleware], and what it consumes is seen
    through the limiter handed out with it: after a request it did not
    skip, [getInfo] on that limiter, asked for the key of the request while
    none of the timestamps involved has left the window, reports as
    remaining the very value the middleware wrote to
    [X-RateLimit-Remaining]. *)
Theorem shared_limiter_sees_middleware_hits (config : RateLimitConfig.t)
    (env : Env) (req : Request) (s : gmap string RateLimitRecord) (t : Z) :
  let shared := createSharedRateLimiter config in
  let cfg := RateLimiter.config (SharedRateLimiter.limiter shared) in
  let key := MergedConfig.keyGenerator cfg req in
  skips config req = false ->
  MergedConfig.headers cfg = true ->
  Forall (fun ts => ts > t - MergedConfig.windowMs cfg) (timestamps_of s key) ->
  hitNow env > t - MergedConfig.windowMs cfg ->
  exists effects s',
    SharedRateLimiter.middleware shared env req s = Ok (effects, s') /\
    (forall env' req' s0,
       SharedRateLimiter.middleware shared env' req' s0
       = handle (createRateLimitMiddleware config) env' req' s0) /\
    header_writes "X-RateLimit-Remaining" effects
      = [remaining (fst (RateLimiter.getInfo cfg t key s'))].
Proof.
  cbv zeta. cbn [createSharedRateLimiter SharedRateLimiter.limiter
                 SharedRateLimiter.middleware RateLimiter.new
                 RateLimiter.startCleanup RateLimiter.config
                 createRateLimitMiddleware handle].
  intros Hskip Hheaders Hold Hnew.
  set (cfg := merge config) in *.
  set (key := MergedConfig.keyGenerator cfg req) in *.
  destruct (middleware_gated config env req s Hskip)
    as (info & s' & Hhit & Hmw).
  fold cfg key in Hhit, Hmw. rewrite Hheaders in Hmw.
  exists (rateLimitHeaders info
          ++ (if isLimited info
              then [SetHeader "Retry-After" (retryAfterOf env info)]
                   ++ match RateLimitConfig.auditLog config with
                      | Some sink =>
                          [AuditLog sink (auditEntryOf env req key info)]
                      | None => []
                      end
                   ++ match RateLimitConfig.onLimitReached config with
                      | Some handler => [OnLimitReached handler req info]
                      | None =>
                          [Status 429;
                           Json (mkBody "RATE_LIMIT_EXCEEDED"
                                   (MergedConfig.message cfg)
                                   (retryAfterOf env info))]
                      end
              else [Next])), s'.
  split; [by rewrite sharedMiddleware_eq|].
  split; [intros; apply sharedMiddleware_eq|].
  assert (Hwrites : forall tail,
            Forall (fun e => match e with
                             | SetHeader n _ => n = "Retry-After"
                             | _ => True
                             end) tail ->
            header_writes "X-RateLimit-Remaining" (rateLimitHeaders info ++ tail)
            = [remaining info]).
  { intros tail Htail. unfold header_writes, rateLimitHeaders.
    cbn [app flat_map]. 
    assert (Hnone : flat_map
              (fun e => match e with
                        | SetHeader n v =>
                            if decide (n = "X-RateLimit-Remaining")
                            then [v] else []
                        | _ => []
                        end) tail = []).
    { induction Htail as [|e tail He Htail IH]; [done|].
      cbn [flat_map]. rewrite IH.
      destruct e; try done. rewrite He. reflexivity. }
    rewrite Hnone. reflexivity. }
  rewrite Hwrites.
  2:{ destruct (isLimited info), (RateLimitConfig.auditLog config),
        (RateLimitConfig.onLimitReached config); repeat constructor. }
  f_equal. symmetry.
  by apply (getInfo_after_hit cfg (hitNow env) (checkNow env) key s t info s').
Qed.

(** The suite's "should share state between middleware and limiter". *)
Lemma shared_limiter_sees_middleware_hits_witness :
  let config := testStrict in
  let env := mkEnv 1000 1000 1000 1000 "id" in
  let req := mkRequest (Some "192.168.1.100") (Some "192.168.1.100")
               "/api/test" "GET" ∅ in
  let shared := createSharedRateLimiter config in
  let cfg := RateLimiter.config (SharedRateLimiter.limiter shared) in
  let key := MergedConfig.keyGenerator cfg req in
  exists effects s',
    SharedRateLimiter.middleware shared env req ∅ = Ok (effects, s') /\
    (forall env' req' s0,
       SharedRateLimiter.middleware shared env' req' s0
       = handle (createRateLimitMiddleware config) env' req' s0) /\
    header_writes "X-RateLimit-Remaining" effects
      = [remaining (fst (RateLimiter.getInfo cfg 1010 key s'))].
Proof.
  cbv zeta.
  apply (shared_limiter_sees_middleware_hits testStrict
           (mkEnv 1000 1000 1000 1000 "id")
           (mkRequest (Some "192.168.1.100") (Some "192.168.1.100")
              "/api/test" "GET" ∅) ∅ 1010).
  - reflexivity.
  - reflexivity.
  - constructor.
  - cbn. lia.
Defined.

(** * Edge configurations and repeated checks *)

(** With a limit of zero or less every hit is limited, on every key and in
    every store, at every reading of the clock: nothing remains, and the hit
    records no timestamp. *)
Theorem nonpositive_limit_rejects_everything (cfg : MergedConfig.t)
    (now nowc : Z) (key : string) (s : gmap string RateLimitRecord) :
  MergedConfig.limit cfg <= 0 ->
  exists info s',
    RateLimiter.hit cfg now nowc key s = Ok (info, s') /\
    isLimited info = true /\
    remaining info = 0 /\
    timestamps_of s' key = live cfg nowc s key.
Proof.
  intros HL. rewrite hit_eq. cbv zeta.
  destruct (isLimited _) eqn:Hlim.
  - do 2 eexists. split; [reflexivity|]. split; [exact Hlim|].
    split; [|apply timestamps_of_insert].
    unfold RateLimiter.info_of. cbn [remaining timestamps]. lia.
  - apply isLimited_false_iff in Hlim. cbn [timestamps] in Hlim. lia.
Qed.

Lemma nonpositive_limit_rejects_everything_witness :
  let cfg := merge (RateLimitConfig.mk (Some 0) (Some 100) None None None
                      None None None) in
  exists info s',
    RateLimiter.hit cfg 1000 1000 "k" ∅ = Ok (info, s') /\
    isLimited info = true /\
    remaining info = 0 /\
    timestamps_of s' "k" = live cfg 1000 ∅ "k".
Proof.
  cbv zeta.
  apply (nonpositive_limit_rejects_everything
           (merge (RateLimitConfig.mk (Some 0) (Some 100) None None None
                     None None None)) 1000 1000 "k" ∅).
  cbn. lia.
Defined.

(** With a window of zero or less and a clock that has not gone back, no
    timestamp is ever inside the window: with a positive limit every hit is
    admitted and reports [limit - 1] remaining, so such a limiter never
    limits. *)
Theorem nonpositive_window_never_limits (cfg : MergedConfig.t)
    (T now nowc : Z) (key : string) (s : gmap string RateLimitRecord) :
  MergedConfig.windowMs cfg <= 0 ->
  0 < MergedConfig.limit cfg ->
  store_wf T s ->
  T <= nowc ->
  exists info s',
    RateLimiter.hit cfg now nowc key s = Ok (info, s') /\
    isLimited info = false /\
    remaining info = MergedConfig.limit cfg - 1 /\
    timestamps_of s' key = [now].
Proof.
  intros HW HL Hwf HT.
  assert (Hlive : live cfg nowc s key = []).
  { pose proof (store_wf_timestamps_of T s key Hwf) as Hts.
    unfold live. induction Hts as [|ts l Hle Hl IH]; [done|].
    rewrite filter_cons. destruct (decide (ts > nowc - _)); [lia | exact IH]. }
  rewrite hit_eq. cbv zeta. rewrite Hlive.
  destruct (isLimited _) eqn:Hlim.
  - apply isLimited_iff in Hlim. cbn [timestamps length] in Hlim. lia.
  - do 2 eexists. split; [reflexivity|]. split; [reflexivity|].
    split; [|apply timestamps_of_insert].
    unfold RateLimiter.info_of. cbn [remaining timestamps length]. lia.
Qed.

Lemma nonpositive_window_never_limits_witness :
  let cfg := merge (RateLimitConfig.mk (Some 1) (Some 0) None None None
                      None None None) in
  let s : gmap string RateLimitRecord := {["k" := mkRecord [1000] 1000]} in
  exists info s',
    RateLimiter.hit cfg 1000 1000 "k" s = Ok (info, s') /\
    isLimited info = false /\
    remaining info = MergedConfig.limit cfg - 1 /\
    timestamps_of s' "k" = [1000].
Proof.
  cbv zeta.
  apply (nonpositive_window_never_limits
           (merge (RateLimitConfig.mk (Some 1) (Some 0) None None None
                     None None None))
           1000 1000 1000 "k" {["k" := mkRecord [1000] 1000]}).
  - cbn. lia.
  - cbn. lia.
  - intros k r Hk. apply lookup_singleton_Some in Hk as [_ <-].
    cbn [timestamps lastAccess]. split; [repeat constructor; lia | lia].
  - lia.
Defined.

(** A [check] or [getInfo] made in between is not seen by a later one: as
    long as the clock has not gone back, checking a key at [now] and again at
    [now'] returns at [now'] the same view, and leaves the same store, as
    checking it at [now'] only.  In particular [getInfo] repeated at one
    reading returns the same view and changes nothing more. *)
Theorem check_twice_is_the_later (cfg : MergedConfig.t) (now now' : Z)
    (key : string) (s : gmap string RateLimitRecord) :
  now <= now' ->
  RateLimiter.check cfg now' key (snd (RateLimiter.check cfg now key s))
    = RateLimiter.check cfg now' key s.
Proof.
  intros Hle. rewrite !check_eq. cbn [snd].
  rewrite live_insert. cbn [timestamps].
  rewrite (live_later cfg now now' s key Hle), insert_insert_eq.
  reflexivity.
Qed.

Lemma check_twice_is_the_later_witness :
  let cfg := merge testStrict in
  let s : gmap string RateLimitRecord :=
    {["k" := mkRecord [1000; 1060] 1060]} in
  RateLimiter.check cfg 1120 "k" (snd (RateLimiter.check cfg 1070 "k" s))
    = RateLimiter.check cfg 1120 "k" s.
Proof.
  cbv zeta.
  apply (check_twice_is_the_later (merge testStrict) 1070 1120 "k"). lia.
Defined.
